(** * stringDistance: edit distance and BK-tree index

    A shallow embedding of [stringDistance.py]: the dynamic-programming
    [edit_distance] over a [defaultdict(int)] table, and the [BKtree] class
    ([__init__], [_addLeaf], [find], [_finder], [xfind], [_xfinder]) over a
    dictionary from items to arc lists. *)

From stdpp Require Import gmap list strings.

Set Warnings "-register-all".
Local Open Scope Z_scope.

(** ** Part I: [edit_distance] *)

Module EditDistance.

Section edit_distance.
Context {A : Type} `{EqDecision A}.

(** *** The reference recurrence and edit scripts *)

(** Levenshtein recurrence on the heads of two lists.  The table of the
    program compares last elements of prefixes, so it is related to [lev]
    on reversed prefixes. *)
Fixpoint lev (s t : list A) : nat :=
  match s with
  | [] => length t
  | x :: s' =>
      (fix lev_row (t : list A) : nat :=
         match t with
         | [] => length s
         | y :: t' =>
             if decide (x = y) then lev s' t'
             else S (Nat.min (Nat.min (lev s' t) (lev_row t')) (lev s' t'))
         end) t
  end.

(** One single-element edit: insertion, deletion or substitution at any
    position. *)
Inductive edit1 : list A → list A → Prop :=
  | edit_ins p x s : edit1 (p ++ s) (p ++ x :: s)
  | edit_del p x s : edit1 (p ++ x :: s) (p ++ s)
  | edit_sub p x y s : x ≠ y → edit1 (p ++ x :: s) (p ++ y :: s).

(** [edits n a b]: [a] is transformed into [b] by [n] single-element edits. *)
Inductive edits : nat → list A → list A → Prop :=
  | edits_O a : edits 0 a a
  | edits_S n a b c : edit1 a b → edits n b c → edits (S n) a c.

(** *** The program *)

(** [d = defaultdict(int)], keyed by pairs [(i, j)]. *)
Abbreviation table := (gmap (nat * nat) Z).

(** Reading [d[k]]: a missing key is inserted with the default [int()] = 0
    and that default is returned. *)
Definition dd_get (d : table) (k : nat * nat) : Z * table :=
  match d !! k with
  | Some v => (v, d)
  | None => (0, <[k := 0]> d)
  end.

(** Body of the inner loop, lines 17-20.  The loops keep [1 <= i <= len(a)]
    and [1 <= j <= len(b)], so both element lookups are in range. *)
Definition cell (a b : list A) (j : nat) (d : table) (i : nat) : table :=
  if decide (a !! (i - 1)%nat = b !! (j - 1)%nat) then
    let '(v, d) := dd_get d ((i - 1)%nat, (j - 1)%nat) in
    <[(i, j) := v]> d
  else
    let '(x, d) := dd_get d ((i - 1)%nat, j) in
    let '(y, d) := dd_get d (i, (j - 1)%nat) in
    let '(z, d) := dd_get d ((i - 1)%nat, (j - 1)%nat) in
    <[(i, j) := Z.min (Z.min (x + 1) (y + 1)) (z + 1)]> d.

(** [range(1, n + 1)] *)
Definition range1 (n : nat) : list nat := seq 1 n.

(** Lines 9-22: the body of [edit_distance] once [len(a) >= len(b)]. *)
Definition edit_table (a b : list A) : Z :=
  let d : table := ∅ in
  let d := foldl (λ d i, <[(i, 0%nat) := Z.of_nat i]> d) d (range1 (length a)) in
  let d := foldl (λ d j, <[(0%nat, j) := Z.of_nat j]> d) d (range1 (length b)) in
  let d := foldl (λ d j, foldl (cell a b j) d (range1 (length a)))
                 d (range1 (length b)) in
  (dd_get d (length a, length b)).1.

(** Lines 6-8: swap the operands when [a] is the shorter one; the recursive
    call then falls through to the table. *)
Definition edit_distance (a b : list A) : Z :=
  if (length a <? length b)%nat then edit_table b a else edit_table a b.

(** *** The loop invariant of the table *)

(** The value a read of [d[k]] returns. *)
Definition gv (d : table) (k : nat * nat) : Z := default 0 (d !! k).

(** The entry the recurrence assigns to cell [(i, j)]. *)
Definition L (a b : list A) (i j : nat) : Z :=
  Z.of_nat (lev (rev (take i a)) (rev (take j b))).

(** Columns before [J] and rows before [I] of column [J] are filled in,
    as are row 0 and column 0. *)
Definition filled (a b : list A) (J I : nat) (d : table) : Prop :=
  ∀ i j, (i ≤ length a)%nat → (j ≤ length b)%nat →
    (i = 0 ∨ j = 0 ∨ j < J ∨ (j = J ∧ i < I))%nat →
    gv d (i, j) = L a b i j.

End edit_distance.

End EditDistance.

(** ** Part II: the [BKtree] class *)

Module BK.

(** Exceptions the modelled methods can raise. *)
Inductive exn : Type :=
  | KeyError    (* [self.nodes[k]] on a missing key *)
  | TypeError.  (* iterating over [None] *)

(** Outcome of running a method: a value, an exception, or the recursion
    budget of the model used up. *)
Inductive outcome (A : Type) : Type :=
  | Ok (a : A)
  | Raise (e : exn)
  | OutOfFuel.
Arguments Ok {A} a.
Arguments Raise {A} e.
Arguments OutOfFuel {A}.

Section bktree.
Context {Item : Type} `{Countable Item}.

(** The callable passed to the constructor and kept in [self.distance]. *)
Variable distance : Item → Item → Z.
(** The value [""], stored in [self.root] when the stream is empty. *)
Variable empty_str : Item.

(** An arc is the tuple [(word, distance)]. *)
Abbreviation arc := (Item * Z)%type.

(** The mutable attributes of a [BKtree] object. *)
Record BKtree : Type := mkBKtree {
  root : Item;
  nodes : gmap Item (list arc)
}.

(** Methods are state transformers over the object that may raise. *)
Definition M (A : Type) : Type := BKtree → outcome (A * BKtree).

Definition ret {A} (a : A) : M A := λ self, Ok (a, self).
Definition bind {A B} (m : M A) (k : A → M B) : M B :=
  λ self,
    match m self with
    | Ok (a, self') => k a self'
    | Raise e => Raise e
    | OutOfFuel => OutOfFuel
    end.
Definition raise {A} (e : exn) : M A := λ _, Raise e.
Definition out_of_fuel {A} : M A := λ _, OutOfFuel.

Notation "'let!' x ':=' c 'in' k" := (bind c (λ x, k))
  (at level 10, x binder, c at level 100, k at level 200).

(** [self.root] *)
Definition get_root : M Item := λ self, Ok (root self, self).
(** [self.nodes] tested for truth: a dict is true when it is not empty. *)
Definition nodes_nonempty : M bool :=
  λ self, Ok (bool_decide (nodes self ≠ ∅), self).
(** [self.nodes[k]] *)
Definition nodes_getitem (k : Item) : M (list arc) :=
  λ self,
    match nodes self !! k with
    | Some v => Ok (v, self)
    | None => Raise KeyError
    end.
(** [k in self.nodes] *)
Definition nodes_contains (k : Item) : M bool :=
  λ self, Ok (bool_decide (k ∈ dom (nodes self)), self).
(** [self.nodes[k] = v] *)
Definition nodes_setitem (k : Item) (v : list arc) : M unit :=
  λ self, Ok ((), mkBKtree (root self) (<[k := v]> (nodes self))).
(** [self.nodes[k].append(a)] *)
Definition nodes_append (k : Item) (a : arc) : M unit :=
  λ self,
    match nodes self !! k with
    | Some v => Ok ((), mkBKtree (root self) (<[k := v ++ [a]]> (nodes self)))
    | None => Raise KeyError
    end.

(** [for x in l: s = body(x, s)] *)
Fixpoint for_ {B S : Type} (l : list B) (body : B → S → M S) (s : S) : M S :=
  match l with
  | [] => ret s
  | x :: l' => let! s' := body x s in for_ l' body s'
  end.

(** The arc the loop of [_addLeaf] breaks on: the first one labelled
    [dist]; [None] when the loop runs to its [else]. *)
Fixpoint first_arc (dist : Z) (arcs : list arc) : option arc :=
  match arcs with
  | [] => None
  | a :: arcs' => if decide (dist = a.2) then Some a else first_arc dist arcs'
  end.

(** Lines 87-97.  [fuel] bounds the recursion depth. *)
Fixpoint _addLeaf (fuel : nat) (root item : Item) : M unit :=
  match fuel with
  | O => out_of_fuel
  | S fuel' =>
      let dist := distance root item in
      if decide (dist > 0) then
        let! arcs := nodes_getitem root in
        match first_arc dist arcs with
        | Some a => _addLeaf fuel' a.1 item
        | None =>
            let! has := nodes_contains item in
            let! _ := (if has : bool then ret () else nodes_setitem item []) in
            nodes_append root (item, dist)
        end
      else ret ()
  end.

(** Lines 68-85, with the item stream given as the list of what it yields.
    The garbage-collector toggling has no effect on the object. *)
Definition __init__ (fuel : nat) (items : list Item) : outcome BKtree :=
  match items with
  | [] => Ok (mkBKtree empty_str ∅)
  | first :: rest =>
      let self := mkBKtree first {[ first := [] ]} in
      let loop :=
        for_ rest (λ el _,
          let! has := nodes_contains el in
          if has : bool then ret ()
          else let! r := get_root in _addLeaf fuel r el) () in
      match loop self with
      | Ok (_, self') => Ok self'
      | Raise e => Raise e
      | OutOfFuel => OutOfFuel
      end
  end.

(** Lines 106-114.  The list [result] is appended to in place; the model
    passes it through. *)
Fixpoint _finder (fuel : nat) (root item : Item) (threshold : Z)
    (result : list Item) : M (list Item) :=
  match fuel with
  | O => out_of_fuel
  | S fuel' =>
      let dist := distance root item in
      let result := if decide (dist ≤ threshold) then result ++ [root] else result in
      let dmin := dist - threshold in
      let dmax := dist + threshold in
      let! arcs := nodes_getitem root in
      for_ arcs (λ a result,
        if decide (dmin ≤ a.2 ∧ a.2 ≤ dmax)
        then _finder fuel' a.1 item threshold result
        else ret result) result
  end.

(** Lines 99-104. *)
Definition find (fuel : nat) (item : Item) (threshold : Z) : M (list Item) :=
  let result := [] in
  let! nonempty := nodes_nonempty in
  if nonempty : bool then
    let! r := get_root in
    _finder fuel r item threshold result
  else ret result.

(** *** The generator of [_xfinder]

    A running [_xfinder] generator is a chain of suspended frames, one per
    nested [for node in self._xfinder(...)], innermost first. *)
Inductive frame : Type :=
  | FStart (root : Item)                       (* created, body not yet run *)
  | FYielded (root : Item) (dist : Z)          (* suspended at [yield root] *)
  | FFor (dmin dmax : Z) (arcs : list arc).    (* in the loop, arcs left *)

Abbreviation generator := (list frame).

(** Enter the loop of lines 125-127. *)
Definition enter_loop (root : Item) (dist threshold : Z) (k : generator)
    : M generator :=
  let dmin := dist - threshold in
  let dmax := dist + threshold in
  let! arcs := nodes_getitem root in
  ret (FFor dmin dmax arcs :: k).

(** One transition of the innermost frame.  The first component is the
    item yielded, if the transition is a [yield]: a value yielded by an
    inner generator is passed up unchanged by every enclosing
    [yield node]. *)
Definition gen_step (item : Item) (threshold : Z) (g : generator)
    : M (option Item * generator) :=
  match g with
  | [] => ret (None, [])
  | FStart root :: k =>
      let dist := distance root item in
      if decide (dist ≤ threshold) then ret (Some root, FYielded root dist :: k)
      else let! g' := enter_loop root dist threshold k in ret (None, g')
  | FYielded root dist :: k =>
      let! g' := enter_loop root dist threshold k in ret (None, g')
  | FFor dmin dmax [] :: k => ret (None, k)
  | FFor dmin dmax (a :: arcs) :: k =>
      if decide (dmin ≤ a.2 ∧ a.2 ≤ dmax)
      then ret (None, FStart a.1 :: FFor dmin dmax arcs :: k)
      else ret (None, FFor dmin dmax arcs :: k)
  end.

(** [next(g)]: run to the next [yield] ([Some]) or to exhaustion ([None],
    that is [StopIteration]).  [fuel] bounds the transitions. *)
Fixpoint gen_next (fuel : nat) (item : Item) (threshold : Z) (g : generator)
    : M (option Item * generator) :=
  match fuel with
  | O => out_of_fuel
  | S fuel' =>
      match g with
      | [] => ret (None, [])
      | _ =>
          let! r := gen_step item threshold g in
          match r.1 with
          | Some y => ret r
          | None => gen_next fuel' item threshold r.2
          end
      end
  end.

(** Lines 116-119: the generator object, or [None] when the dict is empty
    (the function falls off its end). *)
Definition xfind (item : Item) (threshold : Z) : M (option generator) :=
  let! nonempty := nodes_nonempty in
  if nonempty : bool then
    let! r := get_root in
    ret (Some [FStart r])
  else ret None.

(** Pull from a generator until it is exhausted. *)
Fixpoint drain (fuel : nat) (item : Item) (threshold : Z) (g : generator)
    (acc : list Item) : M (list Item) :=
  match fuel with
  | O => out_of_fuel
  | S fuel' =>
      let! r := gen_next fuel' item threshold g in
      match r.1 with
      | Some y => drain fuel' item threshold r.2 (acc ++ [y])
      | None => ret acc
      end
  end.

(** [list(self.xfind(item, threshold))]: iterating over [None] raises. *)
Definition list_xfind (fuel : nat) (item : Item) (threshold : Z)
    : M (list Item) :=
  let! g := xfind item threshold in
  match g with
  | Some g => drain fuel item threshold g []
  | None => raise TypeError
  end.

(** The first [n] items of a generator: up to [n] calls of [next],
    stopping at exhaustion.  Returns the items and the generator left. *)
Fixpoint pull (n fuel : nat) (item : Item) (threshold : Z) (g : generator)
    : M (list Item * generator) :=
  match n with
  | O => ret ([], g)
  | S n' =>
      let! r := gen_next fuel item threshold g in
      match r.1 with
      | Some y =>
          let! rest := pull n' fuel item threshold r.2 in
          ret (y :: rest.1, rest.2)
      | None => ret ([], r.2)
      end
  end.

(** [yields n g ys g']: on the object [self], [n] transitions take the
    generator from [g] to [g'], yielding [ys] and leaving [self] as it is. *)
Inductive yields (item : Item) (threshold : Z) (self : BKtree)
    : nat → generator → list Item → generator → Prop :=
  | yields_O g : yields item threshold self O g [] g
  | yields_S n g o g1 ys g' :
      g ≠ [] →
      gen_step item threshold g self = Ok ((o, g1), self) →
      yields item threshold self n g1 ys g' →
      yields item threshold self (S n) g (option_list o ++ ys) g'.

(** *** The dictionary read as a tree

    The proofs read [self.nodes] as a rooted tree: a node carries its item
    and, in insertion order, its labelled subtrees. *)
Inductive bk : Type :=
  | Node (x : Item) (arcs : list (bk * Z)).

Definition aroot (t : bk) : Item := match t with Node x _ => x end.

(** The arc list stored in the dictionary for a node with these subtrees. *)
Definition stubs (arcs : list (bk * Z)) : list arc :=
  map (λ a, (aroot a.1, a.2)) arcs.

(** The dictionary entries of a tree, in pre-order. *)
Fixpoint aentries (t : bk) : list (Item * list arc) :=
  match t with
  | Node x arcs => (x, stubs arcs) :: flat_map (λ a, aentries a.1) arcs
  end.

Definition aitems (t : bk) : list Item := (aentries t).*1.

Fixpoint height (t : bk) : nat :=
  match t with
  | Node x arcs => S (foldr (λ a h, Nat.max (height a.1) h) O arcs)
  end.

(** The loop of [_addLeaf] on subtrees: descend into the first subtree
    labelled [dist], or attach [leaf] after the last one. *)
Definition route (descend : bk → bk) (leaf : bk * Z) (dist : Z)
    : list (bk * Z) → list (bk * Z) :=
  fix go (arcs : list (bk * Z)) : list (bk * Z) :=
    match arcs with
    | [] => [leaf]
    | a :: arcs' =>
        if decide (dist = a.2) then (descend a.1, a.2) :: arcs'
        else a :: go arcs'
    end.

(** What [_addLeaf] does, on trees. *)
Fixpoint ainsert (item : Item) (t : bk) : bk :=
  match t with
  | Node x arcs =>
      let dist := distance x item in
      if decide (dist > 0) then
        Node x (route (ainsert item) (Node item [], dist) dist arcs)
      else t
  end.

(** What [_finder] appends to [result], on trees. *)
Fixpoint afind (item : Item) (threshold : Z) (t : bk) : list Item :=
  match t with
  | Node x arcs =>
      let dist := distance x item in
      (if decide (dist ≤ threshold) then [x] else []) ++
      flat_map (λ a,
        if decide (dist - threshold ≤ a.2 ∧ a.2 ≤ dist + threshold)
        then afind item threshold a.1 else []) arcs
  end.

(** What the loop of [__init__] builds, on trees. *)
Definition abuild (first : Item) (rest : list Item) : bk :=
  foldl (λ t el, if decide (el ∈ aitems t) then t else ainsert el t)
        (Node first []) rest.

(** The dictionary holds at least the entries of [t]. *)
Definition covers (ns : gmap Item (list arc)) (t : bk) : Prop :=
  ∀ k v, (k, v) ∈ aentries t → ns !! k = Some v.

(** The object is exactly the tree [t]. *)
Definition rep (self : BKtree) (t : bk) : Prop :=
  NoDup (aitems t) ∧ root self = aroot t ∧
  nodes self = list_to_map (aentries t).

(** Labels are positive and pairwise distinct at every node. *)
Inductive wf_labels : bk → Prop :=
  | wf_labels_node x arcs :
      NoDup arcs.*2 →
      Forall (λ a, 0 < a.2 ∧ wf_labels a.1) arcs →
      wf_labels (Node x arcs).

(** Every item below an arc is at the arc's label from the arc's parent. *)
Inductive bkinv : bk → Prop :=
  | bkinv_node x arcs :
      Forall (λ a, (∀ y, y ∈ aitems a.1 → distance x y = a.2) ∧ bkinv a.1) arcs →
      bkinv (Node x arcs).

(** *** Notions used to state further properties *)

(** [self'] keeps the root and every key of [self], each arc list only
    extended at its end. *)
Definition extends (self self' : BKtree) : Prop :=
  root self' = root self ∧
  ∀ k v, nodes self !! k = Some v → ∃ v', nodes self' !! k = Some (v ++ v').


(** The items of a stream at their first occurrence, given those already
    [seen]. *)
Fixpoint first_occurrences (seen items : list Item) : list Item :=
  match items with
  | [] => []
  | x :: items' =>
      if decide (x ∈ seen) then first_occurrences seen items'
      else x :: first_occurrences (x :: seen) items'
  end.

End bktree.

End BK.

(** ** Concrete instances used in examples *)

Module Instances.
Import EditDistance.

(** Edit distance on the characters of two words, the distance of the
    docstring's examples (which name it [editDistanceFast]). *)
Definition word_distance (s t : string) : Z :=
  edit_distance (String.list_ascii_of_string s) (String.list_ascii_of_string t).

(** The word list of the docstring. *)
Definition docstring_words : list string :=
  ["abyss"; "almond"; "clump"; "cubic"; "cuba"; "adopt"; "abused";
   "chronic"; "abutted"; "cube"; "clown"; "admix"; "almsman"]%string.

(** A metric on integers. *)
Definition zdist (x y : Z) : Z := Z.abs (x - y).

(** A distance on integers that is symmetric, zero on equal items and
    satisfies the triangle inequality, but is also zero between [x] and
    [-x]. *)
Definition absdist (x y : Z) : Z := Z.abs (Z.abs x - Z.abs y).

End Instances.

(** ** Part III: facts about [edit_distance] *)

Module EditDistanceFacts.
Import EditDistance.

Section lev_facts.
Context {A : Type} `{EqDecision A}.
Implicit Types (s t a b c : list A) (x y : A).

Local Open Scope nat_scope.
Local Arguments lev : simpl never.

Lemma lev_nil_l t : lev [] t = length t.
Proof. reflexivity. Qed.

Lemma lev_nil_r s : lev s [] = length s.
Proof. by destruct s. Qed.

Lemma lev_cons x s y t :
  lev (x :: s) (y :: t) =
    if decide (x = y) then lev s t
    else S (Nat.min (Nat.min (lev s (y :: t)) (lev (x :: s) t)) (lev s t)).
Proof. reflexivity. Qed.

Lemma lev_sym s t : lev s t = lev t s.
Proof.
  revert t. induction s as [|x s IHs]; intros t.
  - by rewrite lev_nil_l, lev_nil_r.
  - induction t as [|y t IHt]; [done|].
    rewrite !lev_cons, IHt, !IHs.
    destruct (decide (x = y)), (decide (y = x)); try congruence. lia.
Qed.

Lemma lev_refl s : lev s s = 0.
Proof.
  induction s as [|x s IH]; [done|].
  rewrite lev_cons. by destruct (decide (x = x)).
Qed.

(** Adding or dropping a head element moves [lev] by at most one. *)
Lemma lev_head_aux n :
  ∀ s t, length s + length t ≤ n →
    (∀ x, lev (x :: s) t ≤ S (lev s t)) ∧ (∀ x, lev s t ≤ S (lev (x :: s) t)).
Proof.
  induction n as [n IH] using lt_wf_ind. intros s t Hn.
  destruct t as [|y t].
  - split; intros x; rewrite !lev_nil_r; simpl; lia.
  - simpl in Hn.
    assert (Hts : ∀ z, lev s (z :: t) ≤ S (lev s t)).
    { intros z. rewrite (lev_sym s (z :: t)), (lev_sym s t).
      apply (IH (length t + length s)); lia. }
    assert (Hts' : ∀ z, lev s t ≤ S (lev s (z :: t))).
    { intros z. rewrite (lev_sym s (z :: t)), (lev_sym s t).
      apply (IH (length t + length s)); lia. }
    assert (Hst : ∀ z, lev s t ≤ S (lev (z :: s) t)).
    { intros z. apply (IH (length s + length t)); lia. }
    split; intros x; rewrite lev_cons; destruct (decide (x = y)).
    + specialize (Hts' y). lia.
    + lia.
    + apply Hts.
    + specialize (Hts y). specialize (Hst x). lia.
Qed.

Lemma lev_cons_l_le x s t : lev (x :: s) t ≤ S (lev s t).
Proof. by apply (lev_head_aux (length s + length t) s t). Qed.

Lemma lev_cons_l_ge x s t : lev s t ≤ S (lev (x :: s) t).
Proof. by apply (lev_head_aux (length s + length t) s t). Qed.

Lemma lev_cons_r_le y s t : lev s (y :: t) ≤ S (lev s t).
Proof. rewrite (lev_sym s (y :: t)), (lev_sym s t). apply lev_cons_l_le. Qed.

Lemma lev_cons_r_ge y s t : lev s t ≤ S (lev s (y :: t)).
Proof. rewrite (lev_sym s (y :: t)), (lev_sym s t). apply lev_cons_l_ge. Qed.

Lemma lev_cons_cons_ge x y s t : lev s t ≤ lev (x :: s) (y :: t).
Proof.
  rewrite lev_cons. destruct (decide (x = y)); [done|].
  pose proof (lev_cons_r_ge y s t). pose proof (lev_cons_l_ge x s t). lia.
Qed.

Lemma lev_cons_cons_le x y s t : lev (x :: s) (y :: t) ≤ S (lev s t).
Proof. rewrite lev_cons. destruct (decide (x = y)); lia. Qed.

Lemma lev_subst_head x y s t : lev (x :: s) t ≤ S (lev (y :: s) t).
Proof.
  destruct t as [|z t]; [rewrite !lev_nil_r; simpl; lia|].
  pose proof (lev_cons_cons_le x z s t). pose proof (lev_cons_cons_ge y z s t).
  lia.
Qed.

(** The same under a common prefix. *)
Lemma lev_prefix_lipschitz p s s' :
  (∀ t, lev s t ≤ S (lev s' t)) → ∀ t, lev (p ++ s) t ≤ S (lev (p ++ s') t).
Proof.
  intros Hs. induction p as [|z p IHp]; [done|]. simpl.
  induction t as [|y t IHt].
  - rewrite !lev_nil_r. simpl. specialize (IHp []). rewrite !lev_nil_r in IHp. lia.
  - rewrite !lev_cons. destruct (decide (z = y)); [apply IHp|].
    pose proof (IHp (y :: t)). pose proof (IHp t). lia.
Qed.

Lemma edit1_lev a a' t : edit1 a a' → lev a t ≤ S (lev a' t).
Proof.
  intros Ha. revert t. destruct Ha as [p x s|p x s|p x y s Hxy];
    apply lev_prefix_lipschitz; intros t.
  - apply lev_cons_l_ge.
  - apply lev_cons_l_le.
  - apply lev_subst_head.
Qed.

(** No script is shorter than [lev]. *)
Lemma edits_lev_le n a b : edits n a b → lev a b ≤ n.
Proof.
  induction 1 as [a|n a b c Hab Hbc IH]; [by rewrite lev_refl|].
  pose proof (edit1_lev a b c Hab). lia.
Qed.

Lemma edit1_cons x a b : edit1 a b → edit1 (x :: a) (x :: b).
Proof.
  destruct 1 as [p z s|p z s|p z w s Hzw].
  - apply (edit_ins (x :: p)).
  - apply (edit_del (x :: p)).
  - by apply (edit_sub (x :: p)).
Qed.

Lemma edits_cons x n a b : edits n a b → edits n (x :: a) (x :: b).
Proof. induction 1; econstructor; eauto using edit1_cons. Qed.

Lemma edits_delete_all a : edits (length a) a [].
Proof.
  induction a as [|x a IH]; [constructor|].
  simpl. eapply edits_S; [apply (edit_del [] x a)|done].
Qed.

Lemma edits_insert_all b : edits (length b) [] b.
Proof.
  induction b as [|y b IH]; [constructor|]. simpl.
  assert (Hsnoc : ∀ n a c, edits n a c → ∀ d, edit1 c d → edits (S n) a d).
  { induction 1; intros d Hd; econstructor; eauto; constructor. }
  eapply Hsnoc; [apply IH|]. apply (edit_ins [] y b).
Qed.

(** A script of length [lev] exists. *)
Lemma edits_lev a b : edits (lev a b) a b.
Proof.
  revert b. induction a as [|x a IHa]; intros b.
  - rewrite lev_nil_l. apply edits_insert_all.
  - induction b as [|y b IHb]; [rewrite lev_nil_r; apply edits_delete_all|].
    rewrite lev_cons. destruct (decide (x = y)) as [->|Hxy].
    + apply edits_cons, IHa.
    + destruct (Nat.min_spec (lev a (y :: b)) (lev (x :: a) b)) as [[_ E1]|[_ E1]];
        rewrite E1; clear E1.
      * destruct (Nat.min_spec (lev a (y :: b)) (lev a b)) as [[_ E2]|[_ E2]];
          rewrite E2; clear E2.
        -- eapply edits_S; [apply (edit_del [] x a)|apply IHa].
        -- eapply edits_S; [by apply (edit_sub [] x y a)|]. apply edits_cons, IHa.
      * destruct (Nat.min_spec (lev (x :: a) b) (lev a b)) as [[_ E2]|[_ E2]];
          rewrite E2; clear E2.
        -- assert (Hsnoc : ∀ n a c, edits n a c → ∀ d, edit1 c d → edits (S n) a d).
           { induction 1; intros d Hd; econstructor; eauto; constructor. }
           eapply Hsnoc; [apply IHb|]. apply (edit_ins [] y b).
        -- eapply edits_S; [by apply (edit_sub [] x y a)|]. apply edits_cons, IHa.
Qed.

Lemma edits_snoc n a b c : edits n a b → edit1 b c → edits (S n) a c.
Proof.
  induction 1 as [a|n a b' b Hab Hbc IH]; intros Hc.
  - eapply edits_S; [done|constructor].
  - eapply edits_S; [done|]. by apply IH.
Qed.

Lemma edits_app n m a b c : edits n a b → edits m b c → edits (n + m) a c.
Proof. induction 1; [done|]. intros Hc. simpl. econstructor; eauto. Qed.

Lemma edit1_sym a b : edit1 a b → edit1 b a.
Proof. destruct 1; constructor; congruence. Qed.

Lemma edits_sym n a b : edits n a b → edits n b a.
Proof.
  induction 1 as [a|n a b c Hab Hbc IH]; [constructor|].
  eapply edits_snoc; [done|]. by apply edit1_sym.
Qed.

Lemma edit1_rev a b : edit1 a b → edit1 (rev a) (rev b).
Proof.
  destruct 1 as [p x s|p x s|p x y s Hxy];
    rewrite !rev_app_distr; simpl; rewrite <- ?app_assoc; simpl.
  - apply edit_ins.
  - apply edit_del.
  - by apply edit_sub.
Qed.

Lemma edits_rev n a b : edits n a b → edits n (rev a) (rev b).
Proof. induction 1; econstructor; eauto using edit1_rev. Qed.

Lemma lev_rev a b : lev (rev a) (rev b) = lev a b.
Proof.
  apply Nat.le_antisymm.
  - apply edits_lev_le, edits_rev, edits_lev.
  - rewrite <- (rev_involutive a), <- (rev_involutive b) at 1.
    apply edits_lev_le, edits_rev, edits_lev.
Qed.

Lemma lev_triangle a b c : lev a c ≤ lev a b + lev b c.
Proof. apply edits_lev_le. eapply edits_app; apply edits_lev. Qed.

Lemma lev_zero a b : lev a b = 0 → a = b.
Proof.
  intros E. pose proof (edits_lev a b) as Hs. rewrite E in Hs. by inversion Hs.
Qed.

End lev_facts.

(** *** The table computes the recurrence *)

Section table_facts.
Context {A : Type} `{EqDecision A}.
Implicit Types (a b : list A) (d : gmap (nat * nat) Z) (i j : nat).

Local Arguments lev : simpl never.

Lemma dd_get_fst d k : (dd_get d k).1 = gv d k.
Proof. unfold dd_get, gv. by destruct (d !! k). Qed.

Lemma dd_get_snd d k k' : gv (dd_get d k).2 k' = gv d k'.
Proof.
  unfold dd_get, gv. destruct (d !! k) eqn:E; [done|]. simpl.
  destruct (decide (k = k')) as [->|Hne].
  - by rewrite lookup_insert_eq, E.
  - by rewrite lookup_insert_ne.
Qed.

Lemma gv_insert d k v k' :
  gv (<[k := v]> d) k' = if decide (k = k') then v else gv d k'.
Proof.
  unfold gv. destruct (decide (k = k')) as [->|Hne].
  - by rewrite lookup_insert_eq.
  - by rewrite lookup_insert_ne.
Qed.

(** Loops over [range(1, n + 1)] carry an invariant indexed by the next
    value of the loop variable. *)
Lemma foldl_range1_ind {S : Type} (P : nat → S → Prop) (f : S → nat → S) n s0 :
  P 1%nat s0 →
  (∀ k s, (1 ≤ k ≤ n)%nat → P k s → P (Datatypes.S k) (f s k)) →
  P (Datatypes.S n) (foldl f s0 (range1 n)).
Proof.
  unfold range1. intros H0 Hstep.
  assert (Hgen : ∀ m start s, (start + m = Datatypes.S n)%nat → (1 ≤ start)%nat →
            P start s → P (Datatypes.S n) (foldl f s (seq start m))).
  { induction m as [|m IH]; intros start s0' Hm Hs HP; simpl.
    - by replace (Datatypes.S n) with start by lia.
    - apply IH; [lia|lia|]. apply Hstep; [lia|done]. }
  by apply Hgen.
Qed.

Lemma L_step a b i j x y :
  a !! i = Some x → b !! j = Some y →
  L a b (S i) (S j) =
    if decide (x = y) then L a b i j
    else Z.min (Z.min (L a b i (S j) + 1) (L a b (S i) j + 1)) (L a b i j + 1).
Proof.
  intros Ha Hb. unfold L.
  rewrite (take_S_r a i x Ha), (take_S_r b j y Hb), !rev_app_distr. simpl.
  rewrite lev_cons. destruct (decide (x = y)); [done|]. lia.
Qed.

Lemma cell_filled a b j i d :
  (1 ≤ i ≤ length a)%nat → (1 ≤ j ≤ length b)%nat →
  filled a b j i d → filled a b j (S i) (cell a b j d i).
Proof.
  intros Hi Hj Hd.
  destruct (lookup_lt_is_Some_2 a (i - 1)) as [x Hx]; [lia|].
  destruct (lookup_lt_is_Some_2 b (j - 1)) as [y Hy]; [lia|].
  pose proof (L_step a b (i - 1) (j - 1) x y Hx Hy) as HL.
  replace (S (i - 1)) with i in HL by lia.
  replace (S (j - 1)) with j in HL by lia.
  assert (H11 : gv d ((i - 1)%nat, (j - 1)%nat) = L a b (i - 1) (j - 1))
    by (apply Hd; lia).
  assert (H10 : gv d ((i - 1)%nat, j) = L a b (i - 1) j) by (apply Hd; lia).
  assert (H01 : gv d (i, (j - 1)%nat) = L a b i (j - 1)) by (apply Hd; lia).
  assert (∃ d', cell a b j d i = <[(i, j) := L a b i j]> d' ∧
                ∀ k, gv d' k = gv d k) as (d' & -> & Hd').
  { unfold cell. rewrite Hx, Hy.
    destruct (decide (Some x = Some y)) as [E|E].
    - destruct (decide (x = y)); [|congruence].
      destruct (dd_get d _) as [v d1] eqn:E1.
      exists d1. split.
      + f_equal. rewrite HL, <- H11, <- dd_get_fst. by rewrite E1.
      + intros k. rewrite <- (dd_get_snd d ((i - 1)%nat, (j - 1)%nat) k).
        by rewrite E1.
    - destruct (decide (x = y)); [congruence|].
      destruct (dd_get d _) as [v1 d1] eqn:E1.
      destruct (dd_get d1 (i, _)) as [v2 d2] eqn:E2.
      destruct (dd_get d2 _) as [v3 d3] eqn:E3.
      assert (G1 : ∀ k, gv d1 k = gv d k).
      { intros k. rewrite <- (dd_get_snd d ((i - 1)%nat, j) k). by rewrite E1. }
      assert (G2 : ∀ k, gv d2 k = gv d k).
      { intros k. rewrite <- G1, <- (dd_get_snd d1 (i, (j - 1)%nat) k).
        by rewrite E2. }
      assert (G3 : ∀ k, gv d3 k = gv d k).
      { intros k. rewrite <- G2,
          <- (dd_get_snd d2 ((i - 1)%nat, (j - 1)%nat) k). by rewrite E3. }
      exists d3. split; [|done]. f_equal. rewrite HL.
      replace v1 with (L a b (i - 1) j).
      2:{ rewrite <- H10, <- dd_get_fst. by rewrite E1. }
      replace v2 with (L a b i (j - 1)).
      2:{ rewrite <- H01, <- G1, <- dd_get_fst. by rewrite E2. }
      replace v3 with (L a b (i - 1) (j - 1)).
      2:{ rewrite <- H11, <- G2, <- dd_get_fst. by rewrite E3. }
      done. }
  intros i' j' Hi' Hj' Hc. rewrite gv_insert.
  destruct (decide ((i, j) = (i', j'))) as [E|Hne].
  - by inversion E.
  - rewrite Hd'. apply Hd; [done|done|].
    assert (¬ (i = i' ∧ j = j')) by (intros [-> ->]; done). lia.
Qed.

Lemma L_col0 a b i : (i ≤ length a)%nat → L a b i 0 = Z.of_nat i.
Proof.
  intros Hi. unfold L. rewrite take_0. simpl. rewrite lev_nil_r.
  by rewrite length_rev, length_take_le.
Qed.

Lemma L_row0 a b j : (j ≤ length b)%nat → L a b 0 j = Z.of_nat j.
Proof.
  intros Hj. unfold L. rewrite take_0. simpl. rewrite lev_nil_l.
  by rewrite length_rev, length_take_le.
Qed.

Lemma edit_table_lev a b : edit_table a b = Z.of_nat (lev a b).
Proof.
  unfold edit_table. rewrite dd_get_fst.
  set (d1 := foldl _ ∅ (range1 (length a))).
  set (d2 := foldl _ d1 (range1 (length b))).
  set (d3 := foldl _ d2 (range1 (length b))).
  pose (P1 := λ (k : nat) d, ∀ i j, gv d (i, j) =
            if decide (j = 0 ∧ 1 ≤ i < k)%nat then Z.of_nat i else 0).
  assert (H1 : P1 (S (length a)) d1).
  { apply (foldl_range1_ind P1); unfold P1.
    - intros i j. unfold gv. rewrite lookup_empty. simpl.
      destruct (decide _); [lia|done].
    - intros k d Hk Hd i j. rewrite gv_insert, Hd.
      destruct (decide ((k, 0%nat) = (i, j))) as [E|Hne].
      + inversion E; subst. destruct (decide _); [done|lia].
      + assert (¬ (k = i ∧ 0%nat = j)) by (intros [-> <-]; done).
        repeat destruct (decide _); try done; lia. }
  pose (P2 := λ (k : nat) d, ∀ i j, gv d (i, j) =
            if decide (i = 0 ∧ 1 ≤ j < k)%nat then Z.of_nat j else gv d1 (i, j)).
  assert (H2 : P2 (S (length b)) d2).
  { apply (foldl_range1_ind P2); unfold P2.
    - intros i j. destruct (decide _); [lia|done].
    - intros k d Hk Hd i j. rewrite gv_insert, Hd.
      destruct (decide ((0%nat, k) = (i, j))) as [E|Hne].
      + inversion E; subst. destruct (decide _); [done|lia].
      + assert (¬ (0%nat = i ∧ k = j)) by (intros [<- ->]; done).
        repeat destruct (decide _); try done; lia. }
  assert (H3 : filled a b (S (length b)) 1 d3).
  { apply (foldl_range1_ind (λ k d, filled a b k 1 d)).
    - intros i j Hi Hj Hc. unfold P1, P2 in *. rewrite H2, H1.
      destruct (decide (i = 0 ∧ 1 ≤ j < S (length b))%nat) as [[-> ?]|Hn].
      + by rewrite L_row0.
      + destruct (decide _) as [[-> ?]|Hn'].
        * by rewrite L_col0.
        * assert (i = 0 ∧ j = 0)%nat as [-> ->] by lia. by rewrite L_col0.
    - intros j d Hj Hd.
      assert (Hin : filled a b j (S (length a)) (foldl (cell a b j) d (range1 (length a)))).
      { apply (foldl_range1_ind (λ k d, filled a b j k d)); [done|].
        intros i d' Hi Hd'. by apply cell_filled. }
      intros i' j' Hi' Hj' Hc. apply Hin; [done|done|lia]. }
  rewrite H3; [|lia|lia|].
  - unfold L. by rewrite !firstn_all, lev_rev.
  - destruct (length b); lia.
Qed.

Lemma edit_distance_lev a b : edit_distance a b = Z.of_nat (lev a b).
Proof.
  unfold edit_distance. destruct (_ <? _)%nat.
  - by rewrite edit_table_lev, lev_sym.
  - apply edit_table_lev.
Qed.

Lemma edit_distance_nil_l b : edit_distance [] b = Z.of_nat (length b).
Proof. by rewrite edit_distance_lev, lev_nil_l. Qed.

Lemma edit_distance_nil_r a : edit_distance a [] = Z.of_nat (length a).
Proof. by rewrite edit_distance_lev, lev_nil_r. Qed.

Lemma edit_distance_refl a : edit_distance a a = 0.
Proof. by rewrite edit_distance_lev, lev_refl. Qed.

Lemma edit_distance_sym a b : edit_distance a b = edit_distance b a.
Proof. by rewrite !edit_distance_lev, lev_sym. Qed.

Lemma edit_distance_triangle a b c :
  edit_distance a c ≤ edit_distance a b + edit_distance b c.
Proof. rewrite !edit_distance_lev. pose proof (lev_triangle a b c). lia. Qed.

Lemma edit_distance_zero a b : edit_distance a b = 0 → a = b.
Proof. rewrite edit_distance_lev. intros E. apply lev_zero. lia. Qed.

Lemma edit_distance_nonneg a b : 0 ≤ edit_distance a b.
Proof. rewrite edit_distance_lev. lia. Qed.

(** C2. [edit_distance a b] is the minimum number of single-element
    insertions, deletions and substitutions that transform [a] into [b]:
    some script of that length exists and no script is shorter.  In
    particular an empty operand gives the length of the other one, and
    equal operands give 0. *)
Theorem edit_distance_minimal a b :
  (∃ n : nat, edit_distance a b = Z.of_nat n ∧ edits n a b ∧
              ∀ m : nat, edits m a b → (n ≤ m)%nat) ∧
  edit_distance [] b = Z.of_nat (length b) ∧
  edit_distance a [] = Z.of_nat (length a) ∧
  edit_distance a a = 0.
Proof.
  split; [|split; [|split]].
  - exists (lev a b). split; [apply edit_distance_lev|].
    split; [apply edits_lev|]. intros m Hm. by apply edits_lev_le.
  - apply edit_distance_nil_l.
  - apply edit_distance_nil_r.
  - apply edit_distance_refl.
Qed.

(** C3. [edit_distance] is a metric on sequences: symmetric, zero on equal
    sequences, satisfying the triangle inequality, and zero only on equal
    sequences. *)
Theorem edit_distance_metric a b c :
  edit_distance a b = edit_distance b a ∧
  edit_distance a a = 0 ∧
  edit_distance a c ≤ edit_distance a b + edit_distance b c ∧
  (edit_distance a b = 0 ↔ a = b).
Proof.
  split; [apply edit_distance_sym|]. split; [apply edit_distance_refl|].
  split; [apply edit_distance_triangle|]. split.
  - apply edit_distance_zero.
  - intros ->. apply edit_distance_refl.
Qed.

End table_facts.

(** *** Further properties of [edit_distance] *)

Section distance_facts.
Context {A : Type} `{EqDecision A}.
Implicit Types (a b p s : list A) (x y : A).

Local Arguments lev : simpl never.

Lemma lev_le_max a b : (lev a b ≤ Nat.max (length a) (length b))%nat.
Proof.
  revert b. induction a as [|x a IH]; intros b; [rewrite lev_nil_l; lia|].
  destruct b as [|y b]; [rewrite lev_nil_r; simpl; lia|].
  pose proof (lev_cons_cons_le x y a b). specialize (IH b). simpl. lia.
Qed.

Lemma edit1_length a b :
  edit1 a b → (length a ≤ S (length b) ∧ length b ≤ S (length a))%nat.
Proof. destruct 1; rewrite !length_app; simpl; lia. Qed.

Lemma edits_length n a b :
  edits n a b → (length a ≤ length b + n ∧ length b ≤ length a + n)%nat.
Proof.
  induction 1 as [a|n a b c Hab _ IH]; [lia|].
  apply edit1_length in Hab. lia.
Qed.

Lemma edit1_neq a b : edit1 a b → a ≠ b.
Proof.
  destruct 1 as [p x s|p x s|p x y s Hxy]; intros E.
  - apply (f_equal length) in E. rewrite !length_app in E. simpl in E. lia.
  - apply (f_equal length) in E. rewrite !length_app in E. simpl in E. lia.
  - apply app_inv_head in E. by inversion E.
Qed.

Lemma lev_prefix p a b : lev (p ++ a) (p ++ b) = lev a b.
Proof.
  induction p as [|x p IH]; [done|]. simpl. rewrite lev_cons.
  by destruct (decide (x = x)).
Qed.

Lemma lev_suffix s a b : lev (a ++ s) (b ++ s) = lev a b.
Proof.
  rewrite <- (lev_rev (a ++ s)), !rev_app_distr, lev_prefix. apply lev_rev.
Qed.

(** X1. The distance lies between the difference of the lengths and the
    larger length. *)
Theorem edit_distance_bounds a b :
  Z.abs (Z.of_nat (length a) - Z.of_nat (length b)) ≤ edit_distance a b ∧
  edit_distance a b ≤ Z.max (Z.of_nat (length a)) (Z.of_nat (length b)).
Proof.
  rewrite edit_distance_lev.
  pose proof (lev_le_max a b). pose proof (edits_length _ _ _ (edits_lev a b)).
  lia.
Qed.

(** X2. A common prefix and a common suffix do not count. *)
Theorem edit_distance_common_affixes p s a b :
  edit_distance (p ++ a ++ s) (p ++ b ++ s) = edit_distance a b.
Proof. by rewrite !edit_distance_lev, lev_prefix, lev_suffix. Qed.

(** X3. Reversing both sequences keeps the distance. *)
Theorem edit_distance_rev a b :
  edit_distance (rev a) (rev b) = edit_distance a b.
Proof. by rewrite !edit_distance_lev, lev_rev. Qed.

(** X4. The swap of lines 7-8 is immaterial: the table gives the same
    value for both orders of the operands, so [edit_distance] is the table
    of its operands as given. *)
Theorem edit_table_swap a b :
  edit_table a b = edit_table b a ∧ edit_distance a b = edit_table a b.
Proof.
  rewrite edit_distance_lev, !edit_table_lev. by rewrite (lev_sym b a).
Qed.

(** X5. Sequences one insertion, deletion or substitution apart are at
    distance exactly 1. *)
Theorem edit_distance_one_edit a b : edit1 a b → edit_distance a b = 1.
Proof.
  intros Hab. rewrite edit_distance_lev.
  assert (lev a b ≤ 1)%nat.
  { apply edits_lev_le. eapply edits_S; [done|constructor]. }
  assert (lev a b ≠ 0)%nat.
  { intros E%lev_zero. by apply edit1_neq in Hab. }
  lia.
Qed.

(** X6. Extending a sequence at either end costs exactly the number of
    elements added. *)
Theorem edit_distance_extend p s a :
  edit_distance a (p ++ a ++ s) = Z.of_nat (length p + length s).
Proof.
  rewrite edit_distance_lev. f_equal. apply Nat.le_antisymm.
  - etrans; [apply (lev_triangle a (a ++ s))|].
    replace (lev a (a ++ s)) with (length s).
    2:{ rewrite <- (app_nil_r a) at 1. by rewrite lev_prefix, lev_nil_l. }
    replace (lev (a ++ s) (p ++ a ++ s)) with (length p); [lia|].
    rewrite <- (app_nil_l (a ++ s)) at 1. by rewrite lev_suffix, lev_nil_l.
  - pose proof (edits_length _ _ _ (edits_lev a (p ++ a ++ s))) as [_ Hl].
    rewrite !length_app in Hl. lia.
Qed.

End distance_facts.

Lemma edit_distance_one_edit_witness :
  edit_distance [1; 2]%nat [1; 3; 2]%nat = 1.
Proof.
  apply (edit_distance_one_edit [1; 2]%nat [1; 3; 2]%nat).
  apply (edit_ins [1%nat] 3%nat [2%nat]).
Defined.

(** The program on the words of the docstring. *)
Example edit_distance_cuba_cube :
  Instances.word_distance "cuba" "cube" = 1.
Proof. vm_compute. reflexivity. Qed.

Example edit_distance_abyss_abused :
  Instances.word_distance "abyss" "abused" = 3.
Proof. vm_compute. reflexivity. Qed.

Example edit_distance_swapped :
  Instances.word_distance "cube" "chronic" = 6 ∧
  Instances.word_distance "chronic" "cube" = 6.
Proof. vm_compute. done. Qed.

End EditDistanceFacts.

(** ** Part IV: facts about [BKtree] *)

Module BKFacts.
Import BK.

Section bk_facts.
Context {Item : Type} `{Countable Item}.
Variable distance : Item → Item → Z.
Variable empty_str : Item.
Implicit Types (t c : bk (Item := Item)) (arcs : list (bk (Item := Item) * Z)).
Implicit Types (ns : gmap Item (list (Item * Z))) (self : BKtree (Item := Item)).
Implicit Types (x y item q r first el : Item) (th : Z).
Implicit Types (rest items : list Item).

Local Notation "'let!' v ':=' c 'in' k" := (bind c (λ v, k))
  (at level 10, v binder, c at level 100, k at level 200).

(** *** Trees *)

Lemma bk_ind' (P : bk → Prop) :
  (∀ x arcs, Forall (λ a, P a.1) arcs → P (Node x arcs)) → ∀ t, P t.
Proof.
  intros Hnode. fix IH 1. intros [x arcs]. apply Hnode.
  induction arcs as [|[c l] arcs IHarcs]; constructor; [apply IH|exact IHarcs].
Qed.

Lemma elem_of_flat_map {B C} (f : B → list C) (l : list B) (z : C) :
  z ∈ flat_map f l ↔ ∃ b, b ∈ l ∧ z ∈ f b.
Proof.
  rewrite list_elem_of_In, in_flat_map. split; intros (b & Hb & Hz); exists b.
  - by rewrite !list_elem_of_In.
  - by rewrite <- !list_elem_of_In.
Qed.

Lemma fmap_flat_map {B C D} (g : C → D) (f : B → list C) (l : list B) :
  g <$> flat_map f l = flat_map (λ b, g <$> f b) l.
Proof. induction l as [|b l IH]; [done|]. simpl. by rewrite fmap_app, IH. Qed.

Lemma aitems_node x arcs :
  aitems (Node x arcs) = x :: flat_map (λ a, aitems a.1) arcs.
Proof. unfold aitems. simpl. by rewrite fmap_flat_map. Qed.

Lemma aroot_in_aitems t : aroot t ∈ aitems t.
Proof. destruct t. rewrite aitems_node. simpl. left. Qed.

Lemma aitems_child x arcs a y :
  a ∈ arcs → y ∈ aitems a.1 → y ∈ aitems (Node x arcs).
Proof.
  intros Ha Hy. rewrite aitems_node. right. apply elem_of_flat_map. eauto.
Qed.

Lemma height_child x arcs a :
  a ∈ arcs → (S (height a.1) ≤ height (Node x arcs))%nat.
Proof.
  simpl. induction 1 as [a arcs|a b arcs Ha IH]; simpl; lia.
Qed.

Lemma height_le_items t : (height t ≤ length (aitems t))%nat.
Proof.
  induction t as [x arcs IH] using bk_ind'. rewrite aitems_node. simpl.
  apply le_n_S. induction IH as [|a arcs Ha _ IH']; simpl; [lia|].
  rewrite length_app. lia.
Qed.

Lemma covers_child ns x arcs a : covers ns (Node x arcs) → a ∈ arcs → covers ns a.1.
Proof.
  intros Hc Ha k v Hkv. apply Hc. simpl. right. apply elem_of_flat_map. eauto.
Qed.

Lemma covers_root ns x arcs : covers ns (Node x arcs) → ns !! x = Some (stubs arcs).
Proof. intros Hc. apply Hc. simpl. left. Qed.

(** *** [_finder] on a covered tree *)

Lemma finder_loop q th fuel ns r dmin dmax arcs :
  Forall (λ a, ∀ res,
    _finder distance fuel (aroot a.1) q th res (mkBKtree r ns)
    = Ok (res ++ afind distance q th a.1, mkBKtree r ns)) arcs →
  ∀ res,
    for_ (stubs arcs) (λ a result,
      if decide (dmin ≤ a.2 ∧ a.2 ≤ dmax)
      then _finder distance fuel a.1 q th result else ret result)
      res (mkBKtree r ns)
    = Ok (res ++ flat_map (λ a,
            if decide (dmin ≤ a.2 ∧ a.2 ≤ dmax)
            then afind distance q th a.1 else []) arcs, mkBKtree r ns).
Proof.
  induction 1 as [|a arcs Ha _ IH]; intros res; simpl.
  - unfold ret. by rewrite app_nil_r.
  - unfold bind at 1. destruct (decide _).
    + rewrite Ha, IH. by rewrite app_assoc.
    + unfold ret at 1. by rewrite IH.
Qed.

Lemma finder_sim q th t :
  ∀ fuel ns r res, covers ns t → (height t ≤ fuel)%nat →
    _finder distance fuel (aroot t) q th res (mkBKtree r ns)
    = Ok (res ++ afind distance q th t, mkBKtree r ns).
Proof.
  induction t as [x arcs IH] using bk_ind'. intros fuel ns r res Hc Hf.
  destruct fuel as [|fuel]; [simpl in Hf; lia|].
  cbn [_finder aroot afind]. unfold bind at 1, nodes_getitem. cbn [nodes].
  rewrite (covers_root _ _ _ Hc). rewrite finder_loop.
  - destruct (decide _); by rewrite <- ?app_assoc.
  - apply Forall_forall. intros a Ha res'.
    rewrite Forall_forall in IH. apply IH; [done|by eapply covers_child|].
    pose proof (height_child x arcs a Ha). lia.
Qed.

(** *** Dictionaries overlaid with a list of entries *)

Section overlay.
Context {V : Type}.
Implicit Types (E : list (Item * V)) (m : gmap Item V).

Lemma overlay_covered E m :
  (∀ k v, (k, v) ∈ E → m !! k = Some v) → list_to_map E ∪ m = m.
Proof.
  intros Hc. apply map_eq. intros k. rewrite lookup_union.
  destruct (list_to_map E !! k) as [v|] eqn:Ek.
  - apply elem_of_list_to_map_2 in Ek. rewrite (Hc _ _ Ek). done.
  - by rewrite (left_id None _).
Qed.

Lemma overlay_lookup_ne E m k :
  k ∉ E.*1 → (list_to_map E ∪ m) !! k = m !! k.
Proof.
  intros Hk. rewrite lookup_union, (not_elem_of_list_to_map_1 _ _ Hk).
  by rewrite (left_id None _).
Qed.

Lemma overlay_cons k v E m :
  list_to_map ((k, v) :: E) ∪ m = <[k := v]> (list_to_map E ∪ m).
Proof. by rewrite list_to_map_cons, insert_union_l. Qed.

Lemma overlay_app E1 E2 m :
  list_to_map (E1 ++ E2) ∪ m = list_to_map E1 ∪ (list_to_map E2 ∪ m).
Proof. by rewrite list_to_map_app, (assoc_L (∪)). Qed.

Lemma overlay_nil m : list_to_map (@nil (Item * V)) ∪ m = m.
Proof. simpl. by rewrite (left_id_L ∅ (∪)). Qed.

End overlay.

(** *** [ainsert] *)

Lemma aroot_ainsert item t : aroot (ainsert distance item t) = aroot t.
Proof. destruct t as [x arcs]. simpl. by destruct (decide _). Qed.

Lemma route_spec (descend : bk → bk) leaf dist arcs :
  (first_arc dist (stubs arcs) = None ∧
   route descend leaf dist arcs = arcs ++ [leaf]) ∨
  (∃ pre c post,
     arcs = pre ++ (c, dist) :: post ∧
     first_arc dist (stubs arcs) = Some (aroot c, dist) ∧
     route descend leaf dist arcs = pre ++ (descend c, dist) :: post).
Proof.
  induction arcs as [|[c l] arcs IH]; simpl; [by left|].
  destruct (decide (dist = l)) as [->|Hne].
  - right. by exists [], c, arcs.
  - destruct IH as [[E1 E2]|(pre & c' & post & E1 & E2 & E3)].
    + left. by rewrite E2.
    + right. exists ((c, l) :: pre), c', post. by rewrite E1 at 1; rewrite E3.
Qed.

Lemma stubs_app arcs arcs' : stubs (arcs ++ arcs') = stubs arcs ++ stubs arcs'.
Proof. apply map_app. Qed.

Lemma aentries_split x pre c l post :
  aentries (Node x (pre ++ (c, l) :: post)) =
    (x, stubs (pre ++ (c, l) :: post)) ::
      flat_map (λ a, aentries a.1) pre ++ aentries c ++
      flat_map (λ a, aentries a.1) post.
Proof. simpl. by rewrite flat_map_app. Qed.

Lemma aitems_split x pre c l post :
  aitems (Node x (pre ++ (c, l) :: post)) =
    x :: flat_map (λ a, aitems a.1) pre ++ aitems c ++
      flat_map (λ a, aitems a.1) post.
Proof. rewrite aitems_node. by rewrite flat_map_app. Qed.

Lemma aitems_snoc x arcs item l :
  aitems (Node x (arcs ++ [(Node item [], l)])) =
    x :: flat_map (λ a, aitems a.1) arcs ++ [item].
Proof. rewrite aitems_node. by rewrite flat_map_app. Qed.

(** Insertion adds the item as a leaf or leaves the items alone. *)
Lemma aitems_ainsert item t :
  aitems (ainsert distance item t) ≡ₚ aitems t ∨
  aitems (ainsert distance item t) ≡ₚ item :: aitems t.
Proof.
  induction t as [x arcs IH] using bk_ind'. cbn [ainsert].
  destruct (decide _) as [Hd|Hd]; [|by left].
  destruct (route_spec (ainsert distance item) (Node item [], distance x item)
              (distance x item) arcs)
    as [[_ E]|(pre & c & post & E1 & _ & E3)].
  - right. rewrite E, aitems_snoc, aitems_node.
    rewrite (Permutation_app_comm _ [item]). simpl. apply perm_swap.
  - subst arcs. rewrite E3, !aitems_split.
    rewrite Forall_forall in IH.
    destruct (IH (c, distance x item)) as [Hp|Hp].
    { apply elem_of_app. right. left. }
    + left. simpl in Hp. by rewrite Hp.
    + right. simpl in Hp. rewrite Hp.
      rewrite perm_swap. f_equiv. simpl.
      by rewrite <- Permutation_middle.
Qed.

Lemma elem_of_aitems_ainsert item t y :
  y ∈ aitems (ainsert distance item t) → y = item ∨ y ∈ aitems t.
Proof.
  destruct (aitems_ainsert item t) as [Hp|Hp]; rewrite Hp.
  - by right.
  - by rewrite elem_of_cons.
Qed.

Lemma elem_of_aitems_ainsert_old item t y :
  y ∈ aitems t → y ∈ aitems (ainsert distance item t).
Proof.
  destruct (aitems_ainsert item t) as [Hp|Hp]; rewrite Hp; [done|].
  by right.
Qed.

Lemma NoDup_aitems_ainsert item t :
  item ∉ aitems t → NoDup (aitems t) → NoDup (aitems (ainsert distance item t)).
Proof.
  intros Hi Hn. destruct (aitems_ainsert item t) as [Hp|Hp]; rewrite Hp;
    [done|by constructor].
Qed.

Lemma length_aitems_ainsert item t :
  (length (aitems (ainsert distance item t)) ≤ S (length (aitems t)))%nat.
Proof.
  destruct (aitems_ainsert item t) as [Hp|Hp]; rewrite Hp; simpl; lia.
Qed.

(** *** [_addLeaf] on a covered tree *)

Lemma covers_entries_child ns x arcs a k v :
  covers ns (Node x arcs) → a ∈ arcs → (k, v) ∈ aentries a.1 → ns !! k = Some v.
Proof. intros Hc Ha. by apply (covers_child ns x arcs a). Qed.

Lemma elem_of_aentries_aitems t k v : (k, v) ∈ aentries t → k ∈ aitems t.
Proof. intros Hk. unfold aitems. by apply (list_elem_of_fmap_2 fst) in Hk. Qed.

Lemma addLeaf_sim item t :
  ∀ fuel ns r,
    NoDup (aitems t) → covers ns t → item ∉ dom ns → (height t ≤ fuel)%nat →
    _addLeaf distance fuel (aroot t) item (mkBKtree r ns)
    = Ok ((), mkBKtree r (list_to_map (aentries (ainsert distance item t)) ∪ ns)).
Proof.
  induction t as [x arcs IH] using bk_ind'. intros fuel ns r Hnd Hc Hi Hf.
  destruct fuel as [|fuel]; [simpl in Hf; lia|].
  pose proof (covers_root _ _ _ Hc) as Hx.
  assert (Hxi : item ≠ x).
  { intros ->. apply Hi, elem_of_dom. by eexists. }
  cbn [_addLeaf aroot ainsert].
  destruct (decide (distance x item > 0)) as [Hd|Hd].
  2:{ unfold ret. by rewrite overlay_covered. }
  unfold bind at 1, nodes_getitem. cbn [nodes]. rewrite Hx.
  destruct (route_spec (ainsert distance item) (Node item [], distance x item)
              (distance x item) arcs)
    as [[E1 E2]|(pre & c & post & E1 & E2 & E3)].
  - rewrite E1, E2.
    unfold bind, nodes_contains, nodes_setitem, nodes_append, ret. cbn.
    rewrite bool_decide_eq_false_2 by done. cbn.
    rewrite lookup_insert_ne, Hx by done. do 3 f_equal.
    rewrite <- insert_union_l, flat_map_app, overlay_app. cbn.
    rewrite <- insert_union_l, (left_id_L ∅ (∪)), stubs_app. cbn.
    f_equal. symmetry. apply overlay_covered. intros k v Hkv.
    apply elem_of_flat_map in Hkv as (a & Ha & Hkv).
    pose proof (covers_entries_child _ _ _ _ _ _ Hc Ha Hkv) as Hk.
    rewrite lookup_insert_ne; [done|].
    intros <-. apply Hi, elem_of_dom. by eexists.
  - rewrite E2, E3. cbn [fst].
    assert (Hin : (c, distance x item) ∈ arcs).
    { rewrite E1. apply elem_of_app. right. left. }
    rewrite Forall_forall in IH.
    rewrite E1, aitems_split in Hnd.
    apply NoDup_cons in Hnd as [Hxn Hnd].
    apply NoDup_app in Hnd as (_ & Hpre & Hnd).
    apply NoDup_app in Hnd as (Hndc & Hpost & _).
    pose proof (IH _ Hin fuel ns r) as IHc. cbn [fst] in IHc.
    rewrite IHc; [|done|by eapply (covers_child _ _ _ _ Hc Hin)|done|].
    2:{ pose proof (height_child x arcs _ Hin). simpl in *. lia. }
    do 3 f_equal.
    rewrite aentries_split, overlay_cons, !overlay_app.
    set (ns' := list_to_map (aentries (ainsert distance item c)) ∪ ns).
    assert (Hfresh : ∀ k, k ∈ dom ns → k ∉ aitems c → ns' !! k = ns !! k).
    { intros k Hk Hkc. apply overlay_lookup_ne. intros Hk'.
      apply elem_of_aitems_ainsert in Hk' as [->|Hk']; [by apply Hi|by apply Hkc]. }
    rewrite (overlay_covered (flat_map _ post) ns).
    2:{ intros k v Hkv. apply elem_of_flat_map in Hkv as (a & Ha & Hkv).
        eapply (covers_entries_child _ _ _ _ _ _ Hc); [|done].
        rewrite E1. apply elem_of_app. right. by right. }
    fold ns'. rewrite (overlay_covered (flat_map _ pre) ns').
    2:{ intros k v Hkv. apply elem_of_flat_map in Hkv as (a & Ha & Hkv).
        assert (Hk : ns !! k = Some v).
        { eapply (covers_entries_child _ _ _ _ _ _ Hc); [|done].
          rewrite E1. apply elem_of_app. by left. }
        rewrite Hfresh; [done|apply elem_of_dom; by eexists|].
        intros Hkc. apply (Hpre k).
        - apply elem_of_flat_map. exists a. split; [done|].
          by apply elem_of_aentries_aitems in Hkv.
        - apply elem_of_app. by left. }
    symmetry. apply insert_id.
    rewrite Hfresh; [|apply elem_of_dom; by eexists|].
    + rewrite Hx, E1, !stubs_app. cbn. by rewrite aroot_ainsert.
    + intros Hxc. apply Hxn. apply elem_of_app. right. apply elem_of_app. by left.
Qed.

(** *** [__init__] builds a tree *)

Lemma rep_covers self t : rep self t → covers (nodes self) t.
Proof.
  intros (Hnd & _ & Hns) k v Hkv. rewrite Hns.
  by apply elem_of_list_to_map_1.
Qed.

Lemma rep_dom self t k : rep self t → k ∈ dom (nodes self) ↔ k ∈ aitems t.
Proof.
  intros (_ & _ & Hns). rewrite Hns, dom_list_to_map_L.
  by rewrite elem_of_list_to_set.
Qed.

Lemma overlay_grow {V} (E E' : list (Item * V)) :
  (∀ k, k ∈ E.*1 → k ∈ E'.*1) →
  list_to_map E' ∪ (list_to_map E : gmap Item V) = list_to_map E'.
Proof.
  intros Hsub. apply map_eq. intros k. rewrite lookup_union.
  destruct (list_to_map E' !! k) as [v|] eqn:Ek.
  - by destruct (list_to_map E !! k).
  - rewrite (left_id None _). apply not_elem_of_list_to_map_1.
    apply not_elem_of_list_to_map in Ek. intros Hk. by apply Ek, Hsub.
Qed.

(** The body of the loop of [__init__]. *)
Lemma init_body_dup fuel self t el :
  rep self t → el ∈ aitems t →
  (let! has := nodes_contains el in
   if has then ret ()
   else let! rt := get_root in _addLeaf distance fuel rt el) self
  = Ok ((), self).
Proof.
  intros Hrep Hel. unfold bind, nodes_contains.
  rewrite bool_decide_eq_true_2; [done|]. by apply (rep_dom self t).
Qed.

Lemma init_body_new fuel self t el :
  rep self t → el ∉ aitems t → (length (aitems t) ≤ fuel)%nat →
  ∃ self',
    (let! has := nodes_contains el in
     if has then ret ()
     else let! rt := get_root in _addLeaf distance fuel rt el) self
    = Ok ((), self') ∧ rep self' (ainsert distance el t).
Proof.
  intros Hrep Hel Hf. pose proof Hrep as (Hnd & Hroot & Hns).
  destruct self as [r ns]. cbn in Hroot, Hns.
  unfold bind, nodes_contains, get_root. cbn [nodes BK.root].
  rewrite bool_decide_eq_false_2.
  2:{ intros Hin. by apply (rep_dom _ t _ Hrep) in Hin. }
  cbn. subst r. rewrite (addLeaf_sim el t fuel ns (aroot t)).
  - eexists. split; [done|]. split; [|split]; cbn.
    + by apply NoDup_aitems_ainsert.
    + by rewrite aroot_ainsert.
    + rewrite Hns. apply overlay_grow. intros k Hk.
      by apply elem_of_aitems_ainsert_old.
  - done.
  - by apply (rep_covers _ _ Hrep).
  - intros Hin. by apply (rep_dom _ t _ Hrep) in Hin.
  - pose proof (height_le_items t). lia.
Qed.

Lemma init_loop fuel rest :
  ∀ self t, rep self t → (length (aitems t) + length rest ≤ fuel)%nat →
    ∃ self',
      for_ rest (λ el _,
        let! has := nodes_contains el in
        if has then ret ()
        else let! rt := get_root in _addLeaf distance fuel rt el) () self
      = Ok ((), self') ∧
      rep self' (foldl (λ t el, if decide (el ∈ aitems t) then t
                                else ainsert distance el t) t rest).
Proof.
  induction rest as [|el rest IH]; intros self t Hrep Hf; simpl.
  - by exists self.
  - unfold bind at 1. destruct (decide (el ∈ aitems t)) as [Hel|Hel].
    + rewrite (init_body_dup fuel self t el Hrep Hel).
      apply IH; [done|]. simpl in Hf. lia.
    + destruct (init_body_new fuel self t el Hrep Hel) as (self1 & -> & Hrep1).
      { simpl in Hf. lia. }
      apply IH; [done|]. pose proof (length_aitems_ainsert el t).
      simpl in Hf. lia.
Qed.

Lemma rep_leaf first : rep (mkBKtree first {[ first := [] ]}) (Node first []).
Proof.
  split; [|split]; cbn; [|done|].
  - apply NoDup_singleton.
  - by rewrite insert_empty.
Qed.

Lemma init_rep fuel first rest :
  (S (length rest) ≤ fuel)%nat →
  ∃ self, __init__ distance empty_str fuel (first :: rest) = Ok self ∧
          rep self (abuild distance first rest).
Proof.
  intros Hf. unfold __init__.
  destruct (init_loop fuel rest _ _ (rep_leaf first)) as (self & -> & Hrep).
  { simpl. lia. }
  by exists self.
Qed.

Lemma init_empty fuel :
  __init__ distance empty_str fuel [] = Ok (mkBKtree empty_str ∅).
Proof. reflexivity. Qed.

(** *** What insertion preserves *)

Lemma first_arc_None dist arcs :
  first_arc dist (stubs arcs) = None → dist ∉ arcs.*2.
Proof.
  induction arcs as [|[c l] arcs IH]; simpl; [intros _; apply not_elem_of_nil|].
  destruct (decide (dist = l)); [done|]. intros E.
  apply not_elem_of_cons. split; [done|by apply IH].
Qed.

Lemma wf_labels_leaf item : wf_labels (Node item []).
Proof. constructor; [apply NoDup_nil_2|apply Forall_nil_2]. Qed.

Lemma wf_labels_ainsert item t :
  wf_labels t → wf_labels (ainsert distance item t).
Proof.
  induction t as [x arcs IH] using bk_ind'. intros Hwf.
  inversion Hwf as [x' arcs' Hnd Hall]; subst x' arcs'.
  cbn [ainsert]. destruct (decide _) as [Hd|Hd]; [|done].
  destruct (route_spec (ainsert distance item) (Node item [], distance x item)
              (distance x item) arcs)
    as [[E1 E2]|(pre & c & post & E1 & _ & E3)].
  - rewrite E2. constructor.
    + rewrite fmap_app. apply NoDup_app. split; [done|]. split.
      * intros l Hl Hl'. apply list_elem_of_singleton in Hl'. subst l.
        by apply (first_arc_None _ _ E1).
      * apply NoDup_singleton.
    + apply Forall_app. split; [done|]. apply Forall_singleton.
      split; [simpl; lia|apply wf_labels_leaf].
  - subst arcs. rewrite E3. constructor.
    + by rewrite fmap_app in *.
    + apply Forall_app in Hall as [Hpre Hall].
      apply Forall_cons in Hall as [[Hpos Hc] Hpost].
      apply Forall_app in IH as [_ IH]. apply Forall_cons in IH as [IHc _].
      apply Forall_app. split; [done|]. apply Forall_cons. split; [|done].
      split; [done|by apply IHc].
Qed.

Lemma bkinv_leaf item : bkinv distance (Node item []).
Proof. constructor. apply Forall_nil_2. Qed.

Lemma bkinv_ainsert item t :
  bkinv distance t → bkinv distance (ainsert distance item t).
Proof.
  induction t as [x arcs IH] using bk_ind'. intros Hinv.
  inversion Hinv as [x' arcs' Hall]; subst x' arcs'.
  cbn [ainsert]. destruct (decide _) as [Hd|Hd]; [|done].
  destruct (route_spec (ainsert distance item) (Node item [], distance x item)
              (distance x item) arcs)
    as [[E1 E2]|(pre & c & post & E1 & _ & E3)].
  - rewrite E2. constructor. apply Forall_app. split; [done|].
    apply Forall_singleton. split; [|apply bkinv_leaf].
    intros y Hy. cbn in Hy.
    by apply list_elem_of_singleton in Hy as ->.
  - subst arcs. rewrite E3. constructor.
    apply Forall_app in Hall as [Hpre Hall].
    apply Forall_cons in Hall as [[Hlab Hc] Hpost].
    apply Forall_app in IH as [_ IH]. apply Forall_cons in IH as [IHc _].
    apply Forall_app. split; [done|]. apply Forall_cons. split; [|done].
    split; [|by apply IHc].
    intros y Hy. cbn in Hy. apply elem_of_aitems_ainsert in Hy as [->|Hy];
      [done|by apply Hlab].
Qed.

(** When distinct items are at positive distance, insertion never drops
    the item. *)
Lemma ainsert_adds item t :
  (∀ x y, x ≠ y → distance x y > 0) →
  item ∉ aitems t → item ∈ aitems (ainsert distance item t).
Proof.
  intros Hpos. induction t as [x arcs IH] using bk_ind'. intros Hi.
  cbn [ainsert].
  assert (Hx : x ≠ item).
  { intros ->. apply Hi. rewrite aitems_node. left. }
  destruct (decide _) as [Hd|Hd]; [|by specialize (Hpos x item Hx)].
  destruct (route_spec (ainsert distance item) (Node item [], distance x item)
              (distance x item) arcs)
    as [[E1 E2]|(pre & c & post & E1 & _ & E3)].
  - rewrite E2, aitems_snoc. right. apply elem_of_app. right. left.
  - subst arcs. rewrite E3, aitems_split.
    apply Forall_app in IH as [_ IH]. apply Forall_cons in IH as [IHc _].
    right. apply elem_of_app. right. apply elem_of_app. left.
    apply IHc. intros Hc. apply Hi. rewrite aitems_split.
    right. apply elem_of_app. right. apply elem_of_app. by left.
Qed.

(** *** What [__init__] builds *)

Lemma abuild_ind (P : bk → Prop) :
  (∀ first, P (Node first [])) →
  (∀ item t, P t → item ∉ aitems t → P (ainsert distance item t)) →
  ∀ first rest, P (abuild distance first rest).
Proof.
  intros Hleaf Hins first rest. unfold abuild.
  generalize (Hleaf first). generalize (Node first []).
  induction rest as [|el rest IH]; intros t Ht; simpl; [done|].
  apply IH. destruct (decide _); [done|by apply Hins].
Qed.

Lemma abuild_wf_labels first rest : wf_labels (abuild distance first rest).
Proof.
  apply abuild_ind; [apply wf_labels_leaf|].
  intros item t Ht _. by apply wf_labels_ainsert.
Qed.

Lemma abuild_bkinv first rest : bkinv distance (abuild distance first rest).
Proof.
  apply abuild_ind; [apply bkinv_leaf|].
  intros item t Ht _. by apply bkinv_ainsert.
Qed.

Lemma abuild_items_sub first rest y :
  y ∈ aitems (abuild distance first rest) → y ∈ first :: rest.
Proof.
  unfold abuild.
  assert (Hgen : ∀ t, y ∈ aitems (foldl (λ t el, if decide (el ∈ aitems t) then t
                        else ainsert distance el t) t rest) →
                      y ∈ aitems t ∨ y ∈ rest).
  { induction rest as [|el rest IH]; intros t; simpl; [by left|].
    intros Hy. apply IH in Hy as [Hy|Hy]; [|right; by right].
    destruct (decide _); [by left|].
    apply elem_of_aitems_ainsert in Hy as [->|Hy]; [right; left|by left]. }
  intros Hy. apply Hgen in Hy as [Hy|Hy]; [|by right].
  rewrite aitems_node in Hy. simpl in Hy.
  apply list_elem_of_singleton in Hy as ->. left.
Qed.

Lemma abuild_items_all first rest y :
  (∀ x y, x ≠ y → distance x y > 0) →
  y ∈ first :: rest → y ∈ aitems (abuild distance first rest).
Proof.
  intros Hpos. unfold abuild.
  assert (Hgen : ∀ t, y ∈ aitems t ∨ y ∈ rest →
            y ∈ aitems (foldl (λ t el, if decide (el ∈ aitems t) then t
                        else ainsert distance el t) t rest)).
  { induction rest as [|el rest IH]; intros t; simpl.
    - intros [Hy|Hy]; [done|by apply elem_of_nil in Hy].
    - intros [Hy|Hy]; apply IH.
      + left. destruct (decide _); [done|by apply elem_of_aitems_ainsert_old].
      + apply elem_of_cons in Hy as [->|Hy]; [left|by right].
        destruct (decide _); [done|by apply ainsert_adds]. }
  intros Hy. apply Hgen. apply elem_of_cons in Hy as [->|Hy]; [left|by right].
  rewrite aitems_node. left.
Qed.

(** *** What [_finder] collects *)

Lemma afind_sound q th t y :
  y ∈ afind distance q th t → y ∈ aitems t ∧ distance y q ≤ th.
Proof.
  induction t as [x arcs IH] using bk_ind'. cbn [afind]. intros Hy.
  apply elem_of_app in Hy as [Hy|Hy].
  - destruct (decide _); [|by apply elem_of_nil in Hy].
    apply list_elem_of_singleton in Hy as ->. split; [|done].
    rewrite aitems_node. left.
  - apply elem_of_flat_map in Hy as (a & Ha & Hy).
    destruct (decide _); [|by apply elem_of_nil in Hy].
    rewrite Forall_forall in IH. destruct (IH a Ha Hy) as [Hin Hd].
    split; [by eapply aitems_child|done].
Qed.

Lemma afind_sublist q th t : afind distance q th t `sublist_of` aitems t.
Proof.
  induction t as [x arcs IH] using bk_ind'. cbn [afind]. rewrite aitems_node.
  assert (Hsub : flat_map (λ a,
            if decide (distance x q - th ≤ a.2 ∧ a.2 ≤ distance x q + th)
            then afind distance q th a.1 else []) arcs
          `sublist_of` flat_map (λ a, aitems a.1) arcs).
  { induction IH as [|a arcs Ha _ IH']; simpl; [done|].
    apply sublist_app; [|done]. destruct (decide _); [done|apply sublist_nil_l]. }
  destruct (decide _); simpl.
  - by apply sublist_skip.
  - by apply sublist_cons.
Qed.

Lemma afind_complete q th t y :
  (∀ x y, distance x y = distance y x) →
  (∀ x y z, distance x z ≤ distance x y + distance y z) →
  bkinv distance t → y ∈ aitems t → distance y q ≤ th →
  y ∈ afind distance q th t.
Proof.
  intros Hsym Htri. induction t as [x arcs IH] using bk_ind'.
  intros Hinv Hy Hd. inversion Hinv as [x' arcs' Hall]; subst x' arcs'.
  cbn [afind]. rewrite aitems_node in Hy. apply elem_of_app.
  apply elem_of_cons in Hy as [->|Hy].
  - left. destruct (decide _); [left|done].
  - right. apply elem_of_flat_map in Hy as (a & Ha & Hy).
    apply elem_of_flat_map. exists a. split; [done|].
    rewrite Forall_forall in IH, Hall. destruct (Hall a Ha) as [Hlab Hinva].
    destruct (decide _) as [Hr|Hr]; [by apply IH|].
    exfalso. apply Hr. rewrite <- (Hlab y Hy).
    pose proof (Htri x q y). pose proof (Htri x y q).
    pose proof (Hsym q y). lia.
Qed.

Lemma afind_mono q th1 th2 t :
  th1 ≤ th2 → afind distance q th1 t `sublist_of` afind distance q th2 t.
Proof.
  intros Hth. induction t as [x arcs IH] using bk_ind'. cbn [afind].
  apply sublist_app.
  - repeat destruct (decide _); try done; try lia. apply sublist_nil_l.
  - induction IH as [|a arcs Ha _ IH']; simpl; [done|].
    apply sublist_app; [|done].
    repeat destruct (decide _); try done; try lia. apply sublist_nil_l.
Qed.

Lemma afind_negative q th t :
  (∀ x y, 0 ≤ distance x y) → th < 0 → afind distance q th t = [].
Proof.
  intros Hnn Hth. destruct t as [x arcs]. cbn [afind].
  pose proof (Hnn x q). destruct (decide _); [lia|]. simpl.
  induction arcs as [|a arcs IH]; simpl; [done|].
  destruct (decide _); [lia|done].
Qed.

(** *** [find] on a built tree *)

Lemma nonempty_rep self t : rep self t → nodes self ≠ ∅.
Proof.
  intros Hrep Hemp. pose proof (rep_dom self t (aroot t) Hrep) as Hd.
  rewrite Hemp, dom_empty_L in Hd.
  apply (not_elem_of_empty (C := gset Item) (aroot t)), Hd, aroot_in_aitems.
Qed.

Lemma find_rep fuel q th self t :
  rep self t → (length (aitems t) ≤ fuel)%nat →
  find distance fuel q th self = Ok (afind distance q th t, self).
Proof.
  intros Hrep Hf. unfold find, bind, nodes_nonempty, get_root.
  rewrite bool_decide_eq_true_2 by (by eapply nonempty_rep).
  pose proof Hrep as (_ & Hroot & _). destruct self as [r ns]. cbn in *.
  subst r. rewrite (finder_sim q th t fuel ns); [done| |].
  - by apply (rep_covers _ _ Hrep).
  - pose proof (height_le_items t). lia.
Qed.

Lemma find_empty fuel q th r :
  find distance fuel q th (mkBKtree r ∅) = Ok ([], mkBKtree r ∅).
Proof. reflexivity. Qed.

(** *** The generator on a covered tree *)

Lemma yields_trans q th self n m g ys g1 zs g2 :
  yields distance q th self n g ys g1 → yields distance q th self m g1 zs g2 →
  yields distance q th self (n + m) g (ys ++ zs) g2.
Proof.
  induction 1 as [g|n g o g1 ys g' Hg Hstep Hrest IH]; intros Hm; [done|].
  simpl. rewrite <- app_assoc. econstructor; eauto.
Qed.

Lemma yields_silent q th self n g g1 ys g' :
  g ≠ [] → gen_step distance q th g self = Ok ((None, g1), self) →
  yields distance q th self n g1 ys g' →
  yields distance q th self (S n) g ys g'.
Proof. intros Hg Hs Hy. by apply (yields_S _ _ _ _ _ _ None _ _ _ Hg Hs). Qed.

Lemma yields_loop q th self dmin dmax k arcs :
  Forall (λ a, ∀ k', ∃ n,
    (S n ≤ 4 * length (aitems a.1))%nat ∧
    yields distance q th self n (FStart (aroot a.1) :: k')
      (afind distance q th a.1) k') arcs →
  ∃ n, (n ≤ 4 * length (flat_map (λ a, aitems a.1) arcs) + 1)%nat ∧
    yields distance q th self n (FFor dmin dmax (stubs arcs) :: k)
      (flat_map (λ a, if decide (dmin ≤ a.2 ∧ a.2 ≤ dmax)
                      then afind distance q th a.1 else []) arcs) k.
Proof.
  induction 1 as [|a arcs Ha _ (n' & Hn' & IH)]; simpl.
  - exists 1%nat. split; [lia|]. eapply yields_silent; [done|done|constructor].
  - rewrite length_app. destruct (decide _) as [Hr|Hr].
    + destruct (Ha (FFor dmin dmax (stubs arcs) :: k)) as (na & Hna & Hya).
      exists (S (na + n')). split; [lia|].
      eapply yields_silent; [done| |by eapply yields_trans].
      cbn. by rewrite decide_True.
    + destruct (Ha []) as (na & Hna & _).
      exists (S n'). split; [lia|].
      eapply yields_silent; [done| |done].
      cbn. by rewrite decide_False.
Qed.

Lemma yields_tree q th r ns t :
  covers ns t → ∀ k, ∃ n,
    (S n ≤ 4 * length (aitems t))%nat ∧
    yields distance q th (mkBKtree r ns) n (FStart (aroot t) :: k)
      (afind distance q th t) k.
Proof.
  induction t as [x arcs IH] using bk_ind'. intros Hc k.
  pose proof (covers_root _ _ _ Hc) as Hx.
  destruct (yields_loop q th (mkBKtree r ns) (distance x q - th)
              (distance x q + th) k arcs) as (n & Hn & Hy).
  { apply Forall_forall. intros a Ha. rewrite Forall_forall in IH.
    apply IH; [done|by eapply covers_child]. }
  rewrite aitems_node. cbn [afind aroot length].
  destruct (decide (distance x q ≤ th)) as [Hd|Hd].
  - exists (S (S n)). split; [lia|].
    apply (yields_S _ _ _ _ _ _ (Some x) (FYielded x (distance x q) :: k));
      [done| |].
    { cbn. by rewrite decide_True. }
    eapply yields_silent; [done| |done].
    cbn. unfold bind, enter_loop, bind, nodes_getitem. cbn. by rewrite Hx.
  - exists (S n). split; [lia|].
    eapply yields_silent; [done| |done].
    cbn. rewrite decide_False by done.
    unfold bind, enter_loop, bind, nodes_getitem. cbn. by rewrite Hx.
Qed.

(** *** [next], draining and partial draining *)

Lemma next_spec q th self n g ys :
  yields distance q th self n g ys [] → ∀ fuel, (n < fuel)%nat →
  match ys with
  | [] => gen_next distance fuel q th g self = Ok ((None, []), self)
  | y :: ys' => ∃ g1 m, (m < n)%nat ∧ yields distance q th self m g1 ys' [] ∧
      gen_next distance fuel q th g self = Ok ((Some y, g1), self)
  end.
Proof.
  remember [] as gend eqn:Eg. intros Hy.
  induction Hy as [g|n g o g1 ys g' Hg Hstep Hrest IH]; intros fuel Hf.
  - subst g. destruct fuel; [lia|done].
  - destruct fuel as [|fuel]; [lia|]. destruct g as [|fr k]; [done|].
    assert (Hnext : gen_next distance (S fuel) q th (fr :: k) self =
              match o with
              | Some y => Ok ((Some y, g1), self)
              | None => gen_next distance fuel q th g1 self
              end).
    { cbn [gen_next]. unfold bind. rewrite Hstep. cbn. by destruct o. }
    rewrite Hnext. clear Hnext.
    destruct o as [y|]; cbn [option_list app].
    + exists g1, n. subst g'. split; [lia|]. split; [done|done].
    + specialize (IH Eg fuel ltac:(lia)). destruct ys as [|y ys']; [done|].
      destruct IH as (g2 & m & Hm & Hy2 & Hn). exists g2, m.
      split; [lia|done].
Qed.

Lemma drain_spec q th self n :
  ∀ g ys, yields distance q th self n g ys [] →
  ∀ fuel acc, (n + 1 < fuel)%nat →
    drain distance fuel q th g acc self = Ok (acc ++ ys, self).
Proof.
  induction n as [n IH] using lt_wf_ind. intros g ys Hy fuel acc Hf.
  destruct fuel as [|fuel]; [lia|]. cbn [drain]. unfold bind at 1.
  pose proof (next_spec q th self n g ys Hy fuel ltac:(lia)) as Hn.
  destruct ys as [|y ys'].
  - rewrite Hn. cbn. unfold ret. by rewrite app_nil_r.
  - destruct Hn as (g1 & m & Hm & Hy1 & ->). cbn [fst snd].
    rewrite (IH m Hm g1 ys' Hy1); [|lia]. by rewrite <- app_assoc.
Qed.

Lemma pull_spec q th self k :
  ∀ n g ys, yields distance q th self n g ys [] →
  ∀ fuel, (n < fuel)%nat →
    ∃ g', pull distance k fuel q th g self = Ok ((take k ys, g'), self).
Proof.
  induction k as [|k IH]; intros n g ys Hy fuel Hf.
  - exists g. by rewrite take_0.
  - cbn [pull]. unfold bind at 1.
    pose proof (next_spec q th self n g ys Hy fuel Hf) as Hn.
    destruct ys as [|y ys'].
    + rewrite Hn. cbn. by exists [].
    + destruct Hn as (g1 & m & Hm & Hy1 & ->). cbn [fst snd].
      destruct (IH m g1 ys' Hy1 fuel ltac:(lia)) as (g' & Hp).
      unfold bind. rewrite Hp. cbn. by exists g'.
Qed.

Lemma xfind_rep q th self t :
  rep self t → xfind q th self = Ok (Some [FStart (root self)], self).
Proof.
  intros Hrep. unfold xfind, bind, nodes_nonempty, get_root.
  by rewrite bool_decide_eq_true_2 by (by eapply nonempty_rep).
Qed.

Lemma yields_rep q th self t :
  rep self t → ∃ n, (S n ≤ 4 * length (aitems t))%nat ∧
    yields distance q th self n [FStart (root self)] (afind distance q th t) [].
Proof.
  intros Hrep. pose proof Hrep as (_ & Hroot & _).
  destruct self as [r ns]. cbn in Hroot. subst r.
  apply yields_tree. by apply (rep_covers _ _ Hrep).
Qed.

Lemma list_xfind_rep fuel q th self t :
  rep self t → (4 * length (aitems t) < fuel)%nat →
  list_xfind distance fuel q th self = Ok (afind distance q th t, self).
Proof.
  intros Hrep Hf. unfold list_xfind, bind at 1.
  rewrite (xfind_rep q th self t Hrep).
  destruct (yields_rep q th self t Hrep) as (n & Hn & Hy).
  by rewrite (drain_spec q th self n _ _ Hy) by lia.
Qed.

Lemma pull_rep k fuel q th self t :
  rep self t → (4 * length (aitems t) < fuel)%nat →
  ∃ g', pull distance k fuel q th [FStart (root self)] self
        = Ok ((take k (afind distance q th t), g'), self).
Proof.
  intros Hrep Hf. destruct (yields_rep q th self t Hrep) as (n & Hn & Hy).
  apply (pull_spec q th self k n _ _ Hy). lia.
Qed.

Lemma length_aitems_abuild first rest :
  (length (aitems (abuild distance first rest)) ≤ S (length rest))%nat.
Proof.
  unfold abuild.
  assert (Hgen : ∀ t, (length (aitems (foldl (λ t el,
            if decide (el ∈ aitems t) then t else ainsert distance el t) t rest))
          ≤ length (aitems t) + length rest)%nat).
  { induction rest as [|el rest IH]; intros t; simpl; [lia|].
    etrans; [apply IH|]. destruct (decide _); [lia|].
    pose proof (length_aitems_ainsert el t). lia. }
  etrans; [apply Hgen|]. rewrite aitems_node. simpl. lia.
Qed.

(** *** Queries leave the object alone *)

Lemma gen_step_frame q th g self res self' :
  gen_step distance q th g self = Ok (res, self') → self' = self.
Proof.
  destruct g as [|[x|x d|dmin dmax [|a arcs]] k]; cbn;
    unfold ret, bind, enter_loop, bind, nodes_getitem, ret;
    repeat (destruct (decide _)); try destruct (nodes self !! x);
    intros ?; by simplify_eq.
Qed.

Lemma gen_next_frame fuel q th :
  ∀ g self res self',
    gen_next distance fuel q th g self = Ok (res, self') → self' = self.
Proof.
  induction fuel as [|fuel IH]; intros g self res self'; [done|].
  cbn [gen_next]. destruct g as [|fr k]; [unfold ret; intros ?; by simplify_eq|].
  unfold bind.
  destruct (gen_step distance q th (fr :: k) self) as [[[o g1] self1]| |] eqn:Es;
    [|done|done].
  apply gen_step_frame in Es as ->. cbn.
  destruct o; [unfold ret; intros ?; by simplify_eq|apply IH].
Qed.

(** *** The stored arc lists *)

Lemma stubs_labels arcs : (stubs arcs).*2 = arcs.*2.
Proof. unfold stubs. rewrite <- list_fmap_compose. done. Qed.

Lemma entries_wf t k v :
  wf_labels t → (k, v) ∈ aentries t →
  NoDup v.*2 ∧ Forall (λ a, 0 < a.2) v.
Proof.
  induction t as [x arcs IH] using bk_ind'. intros Hwf Hkv.
  inversion Hwf as [x' arcs' Hnd Hall]; subst x' arcs'.
  cbn [aentries] in Hkv. apply elem_of_cons in Hkv as [E|Hkv].
  - inversion E; subst k v. rewrite stubs_labels. split; [done|].
    unfold stubs. apply Forall_fmap. eapply Forall_impl; [exact Hall|].
    by intros a [Ha _].
  - apply elem_of_flat_map in Hkv as (a & Ha & Hkv).
    rewrite Forall_forall in IH, Hall. apply (IH a Ha); [|done].
    by destruct (Hall a Ha).
Qed.

Lemma rep_lookup self t k v :
  rep self t → nodes self !! k = Some v → (k, v) ∈ aentries t.
Proof. intros (_ & _ & Hns). rewrite Hns. apply elem_of_list_to_map_2. Qed.

(** *** The constructor, in one statement *)

Lemma init_built fuel items :
  (length items ≤ fuel)%nat →
  ∃ self, __init__ distance empty_str fuel items = Ok self ∧
    match items with
    | [] => self = mkBKtree empty_str ∅
    | first :: rest =>
        rep self (abuild distance first rest) ∧
        (length (aitems (abuild distance first rest)) ≤ length items)%nat
    end.
Proof.
  intros Hf. destruct items as [|first rest].
  - eexists. split; [apply init_empty|done].
  - destruct (init_rep fuel first rest Hf) as (self & Hi & Hrep).
    exists self. split; [done|]. split; [done|]. apply length_aitems_abuild.
Qed.

Lemma for_app {B S} (l1 l2 : list B) (body : B → S → M S) (s : S) self :
  for_ (l1 ++ l2) body s self =
    (let! s' := for_ l1 body s in for_ l2 body s') self.
Proof.
  revert s self. induction l1 as [|b l1 IH]; intros s self; simpl; [done|].
  unfold bind in *. destruct (body b s self) as [[s1 self1]| |]; [|done|done].
  apply IH.
Qed.

Lemma init_snoc_dup fuel first rest self y :
  __init__ distance empty_str fuel (first :: rest) = Ok self →
  y ∈ dom (nodes self) →
  __init__ distance empty_str fuel ((first :: rest) ++ [y]) = Ok self.
Proof.
  intros E Hy. cbn [__init__ app] in *. rewrite for_app.
  set (loop := for_ rest _ ()) in *. unfold bind at 1.
  destruct (loop _) as [[[] self1]| |]; [|done|done].
  simplify_eq. cbn [for_]. unfold bind, nodes_contains.
  by rewrite bool_decide_eq_true_2.
Qed.

(** *** First occurrences of a stream *)

Lemma elem_of_first_occurrences (seen l : list Item) y :
  y ∈ first_occurrences seen l ↔ y ∈ l ∧ y ∉ seen.
Proof.
  revert seen. induction l as [|x l IH]; intros seen; simpl.
  - split; [by intros ?%elem_of_nil|by intros [?%elem_of_nil _]].
  - destruct (decide (x ∈ seen)) as [Hx|Hx].
    + rewrite IH, elem_of_cons. split; [intros [? ?]; by auto|].
      intros [[->|Hy] Hs]; [done|by split].
    + rewrite !elem_of_cons, IH, not_elem_of_cons. split.
      * intros [->|[Hy [_ Hs]]]; [by auto|by auto].
      * intros [[->|Hy] Hs]; [by left|].
        destruct (decide (y = x)) as [->|Hne]; [by left|by right].
Qed.

Lemma NoDup_first_occurrences (seen l : list Item) :
  NoDup (first_occurrences seen l).
Proof.
  revert seen. induction l as [|x l IH]; intros seen; simpl;
    [apply NoDup_nil_2|].
  destruct (decide (x ∈ seen)); [apply IH|].
  apply NoDup_cons. split; [|apply IH].
  rewrite elem_of_first_occurrences. intros [_ Hx]. apply Hx. left.
Qed.

(** *** The properties of the index *)

(** C1 (amended).  With a distance that is zero on equal items, symmetric,
    satisfies the triangle inequality and is zero only on equal items,
    [find] on the tree built from any item list, in any order, returns
    without repetition exactly the indexed items within the threshold of
    the query item. *)
Theorem find_complete items q th fuel :
  (∀ x, distance x x = 0) →
  (∀ x y, distance x y = distance y x) →
  (∀ x y z, distance x z ≤ distance x y + distance y z) →
  (∀ x y, distance x y = 0 → x = y) →
  (length items ≤ fuel)%nat →
  ∃ self res,
    __init__ distance empty_str fuel items = Ok self ∧
    find distance fuel q th self = Ok (res, self) ∧
    NoDup res ∧
    ∀ y, y ∈ res ↔ y ∈ items ∧ distance q y ≤ th.
Proof.
  intros Hrefl Hsym Htri Hsep Hf.
  assert (Hpos : ∀ x y, x ≠ y → distance x y > 0).
  { intros x y Hxy. pose proof (Htri x y x). pose proof (Hsym x y).
    pose proof (Hrefl x). destruct (decide (distance x y = 0)) as [E|E]; [|lia].
    by apply Hsep in E. }
  destruct (init_built fuel items Hf) as (self & Hi & Hb).
  destruct items as [|first rest].
  - subst self. exists (mkBKtree empty_str ∅), []. split; [done|].
    split; [apply find_empty|]. split; [apply NoDup_nil_2|].
    intros y. split; [by intros ?%elem_of_nil|by intros [?%elem_of_nil _]].
  - destruct Hb as [Hrep Hlen].
    exists self, (afind distance q th (abuild distance first rest)).
    split; [done|]. split; [apply find_rep; [done|lia]|]. split.
    + eapply sublist_NoDup; [apply Hrep|apply afind_sublist].
    + intros y. rewrite (Hsym q y). split.
      * intros [Hy Hd]%afind_sound. split; [by apply abuild_items_sub|done].
      * intros [Hy Hd]. apply afind_complete; try done.
        -- apply abuild_bkinv.
        -- by apply abuild_items_all.
Qed.

(** C5 (amended).  With a negative threshold and a distance that is never
    negative, [find] raises nothing and returns the empty list, and on a
    tree that is not empty the generator of [xfind] yields nothing. *)
Theorem negative_threshold_empty items q th fuel :
  (∀ x y, 0 ≤ distance x y) → th < 0 → (4 * length items < fuel)%nat →
  ∃ self,
    __init__ distance empty_str fuel items = Ok self ∧
    find distance fuel q th self = Ok ([], self) ∧
    (items ≠ [] → list_xfind distance fuel q th self = Ok ([], self)).
Proof.
  intros Hnn Hth Hf.
  destruct (init_built fuel items ltac:(lia)) as (self & Hi & Hb).
  exists self. split; [done|]. destruct items as [|first rest].
  - subst self. split; [apply find_empty|done].
  - destruct Hb as [Hrep Hlen]. split.
    + rewrite (find_rep fuel q th self _ Hrep) by lia.
      by rewrite afind_negative.
    + intros _. rewrite (list_xfind_rep fuel q th self _ Hrep) by lia.
      by rewrite afind_negative.
Qed.

(** C7 (amended).  After construction from any item list, with any
    distance, the arcs of every node carry pairwise distinct labels, every
    key of the dictionary is an item of the list, and an item that is
    already a key is discarded: the object built is the same.  When the
    distance is positive between distinct items, every item of the list is
    a key, and the keys are the distinct items of the list, each once. *)
Theorem init_structure items fuel :
  (length items ≤ fuel)%nat →
  ∃ self,
    __init__ distance empty_str fuel items = Ok self ∧
    (∀ (k : Item) (arcs : list (Item * Z)),
       nodes self !! k = Some arcs → NoDup arcs.*2) ∧
    (∀ y, y ∈ dom (nodes self) →
          __init__ distance empty_str fuel (items ++ [y]) = Ok self) ∧
    (∀ y, y ∈ dom (nodes self) → y ∈ items) ∧
    ((∀ x y, x ≠ y → distance x y > 0) →
     (∀ y, y ∈ items → y ∈ dom (nodes self)) ∧
     (map_to_list (nodes self)).*1 ≡ₚ first_occurrences [] items).
Proof.
  intros Hf.
  destruct (init_built fuel items Hf) as (self & Hi & Hb).
  exists self. split; [done|]. destruct items as [|first rest].
  - subst self. cbn. split; [by intros k arcs ?%lookup_empty_Some|].
    rewrite dom_empty_L.
    split; [by intros y ?%not_elem_of_empty|].
    split; [by intros y ?%not_elem_of_empty|].
    intros _. split; [by intros y ?%elem_of_nil|].
    by rewrite map_to_list_empty.
  - destruct Hb as [Hrep Hlen]. split; [|split; [|split]].
    + intros k arcs Hk. apply (rep_lookup _ _ _ _ Hrep) in Hk.
      by apply (entries_wf _ _ _ (abuild_wf_labels first rest)) in Hk as [? _].
    + intros y Hy. by apply init_snoc_dup.
    + intros y Hy%(rep_dom _ _ y Hrep). by apply abuild_items_sub.
    + intros Hpos.
      assert (Hall : ∀ y, y ∈ first :: rest →
                          y ∈ aitems (abuild distance first rest))
        by (intros y; by apply abuild_items_all).
      split; [intros y Hy; by apply (rep_dom _ _ y Hrep), Hall|].
      pose proof Hrep as (Hnd & _ & Hns).
      trans (aitems (abuild distance first rest)).
      * rewrite Hns. unfold aitems. f_equiv. by apply map_to_list_to_map.
      * apply NoDup_Permutation; [done|apply NoDup_first_occurrences|].
        intros y. rewrite elem_of_first_occurrences. split.
        -- intros Hy%abuild_items_sub. split; [done|apply not_elem_of_nil].
        -- intros [Hy _]. by apply Hall.
Qed.

(** C8.  On the tree built from any item list, with any distance, whatever
    [find] returns for a threshold it also returns for every larger
    threshold. *)
Theorem find_monotone items q th1 th2 fuel :
  th1 ≤ th2 → (length items ≤ fuel)%nat →
  ∃ self res1 res2,
    __init__ distance empty_str fuel items = Ok self ∧
    find distance fuel q th1 self = Ok (res1, self) ∧
    find distance fuel q th2 self = Ok (res2, self) ∧
    res1 `sublist_of` res2 ∧
    ∀ y, y ∈ res1 → y ∈ res2.
Proof.
  intros Hth Hf.
  destruct (init_built fuel items Hf) as (self & Hi & Hb).
  destruct items as [|first rest].
  - subst self. exists (mkBKtree empty_str ∅), [], [].
    split; [done|]. split; [apply find_empty|]. split; [apply find_empty|].
    by split.
  - destruct Hb as [Hrep Hlen].
    exists self, (afind distance q th1 (abuild distance first rest)),
      (afind distance q th2 (abuild distance first rest)).
    split; [done|]. split; [apply find_rep; [done|lia]|].
    split; [apply find_rep; [done|lia]|].
    pose proof (afind_mono q th1 th2 (abuild distance first rest) Hth) as Hs.
    split; [done|]. intros y Hy. by eapply elem_of_sublist.
Qed.

(** C9.  On the tree built from any item list, [find], [xfind], a full
    drain of the generator and every partial drain return with the object
    (root and dictionary) exactly as it was; and from any generator state
    a call of [next] that returns leaves the object as it was. *)
Theorem queries_preserve_tree items q th fuel :
  (4 * length items < fuel)%nat →
  ∃ self,
    __init__ distance empty_str fuel items = Ok self ∧
    (∃ res, find distance fuel q th self = Ok (res, self)) ∧
    (∃ og, xfind q th self = Ok (og, self) ∧
       ∀ g, og = Some g →
         (∃ res, drain distance fuel q th g [] self = Ok (res, self)) ∧
         (∀ n, ∃ ys g', pull distance n fuel q th g self = Ok ((ys, g'), self))) ∧
    (∀ g fuel' res self',
       gen_next distance fuel' q th g self = Ok (res, self') → self' = self).
Proof.
  intros Hf.
  destruct (init_built fuel items ltac:(lia)) as (self & Hi & Hb).
  exists self. split; [done|]. destruct items as [|first rest].
  - subst self. split; [eexists; apply find_empty|].
    split; [|by intros; eapply gen_next_frame].
    exists None. split; [done|]. by intros g ?.
  - destruct Hb as [Hrep Hlen].
    split; [eexists; apply find_rep; [done|lia]|].
    split; [|by intros; eapply gen_next_frame].
    eexists. split; [by eapply xfind_rep|]. intros g ?. simplify_eq.
    destruct (yields_rep q th self _ Hrep) as (n & Hn & Hy). split.
    + eexists. apply (drain_spec q th self n _ _ Hy). lia.
    + intros k. destruct (pull_spec q th self k n _ _ Hy fuel ltac:(lia))
        as (g' & Hp). by eexists _, _.
Qed.

(** C10.  After construction from any item list, with any distance, every
    arc stored in the dictionary carries a strictly positive label. *)
Theorem arc_labels_positive items fuel :
  (length items ≤ fuel)%nat →
  ∃ self,
    __init__ distance empty_str fuel items = Ok self ∧
    ∀ (k : Item) (arcs : list (Item * Z)) (a : Item * Z),
      nodes self !! k = Some arcs → a ∈ arcs → 0 < a.2.
Proof.
  intros Hf.
  destruct (init_built fuel items Hf) as (self & Hi & Hb).
  exists self. split; [done|]. destruct items as [|first rest].
  - subst self. cbn. by intros k arcs a ?%lookup_empty_Some.
  - destruct Hb as [Hrep Hlen]. intros k arcs a Hk Ha.
    apply (rep_lookup _ _ _ _ Hrep) in Hk.
    apply (entries_wf _ _ _ (abuild_wf_labels first rest)) in Hk as [_ Hall].
    rewrite Forall_forall in Hall. by apply Hall.
Qed.

(** On a tree that is not empty, draining [xfind] gives the list [find]
    returns, in the same order. *)
Lemma list_xfind_find_nonempty first rest q th fuel :
  (4 * length (first :: rest) < fuel)%nat →
  ∃ self res,
    __init__ distance empty_str fuel (first :: rest) = Ok self ∧
    find distance fuel q th self = Ok (res, self) ∧
    list_xfind distance fuel q th self = Ok (res, self).
Proof.
  intros Hf.
  destruct (init_built fuel (first :: rest) ltac:(lia)) as (self & Hi & Hrep & Hlen).
  exists self, (afind distance q th (abuild distance first rest)).
  split; [done|]. split.
  - apply find_rep; [done|lia].
  - apply list_xfind_rep; [done|lia].
Qed.

(** C4 (the empty tree).  On the tree built from an empty stream [find]
    returns the empty list, while draining what [xfind] returns raises
    [TypeError]: [xfind] has returned [None], not a generator. *)
Theorem list_xfind_empty_tree q th fuel :
  ∃ self,
    __init__ distance empty_str fuel [] = Ok self ∧
    find distance fuel q th self = Ok ([], self) ∧
    list_xfind distance fuel q th self = Raise TypeError.
Proof. exists (mkBKtree empty_str ∅). by split; [|split]. Qed.

(** C6 (the empty tree).  Building from an empty stream gives the object
    with root [""] and an empty dictionary; on it [find] returns the empty
    list for every query, and [xfind] returns [None] rather than an empty
    generator. *)
Theorem xfind_empty_tree_none q th fuel :
  ∃ self,
    __init__ distance empty_str fuel [] = Ok self ∧
    self = mkBKtree empty_str ∅ ∧
    find distance fuel q th self = Ok ([], self) ∧
    xfind q th self = Ok (None, self).
Proof. exists (mkBKtree empty_str ∅). by split; [|split; [|split]]. Qed.

End bk_facts.

(** *** Further properties of the index *)

Section more_facts.
Context {Item : Type} `{Countable Item}.
Variable distance : Item → Item → Z.
Variable empty_str : Item.
Implicit Types (t c : bk (Item := Item)) (arcs : list (bk (Item := Item) * Z)).
Implicit Types (ns : gmap Item (list (Item * Z))) (self : BKtree (Item := Item)).
Implicit Types (x y item q r first el : Item) (th : Z).
Implicit Types (rest items extra : list Item).

Local Notation "'let!' v ':=' c 'in' k" := (bind c (λ v, k))
  (at level 10, v binder, c at level 100, k at level 200).

(** **** Queries in any state *)

Lemma for_outcome {B} (l : list B) (body : B → list Item → M (list Item)) self :
  (∀ b acc,
     match body b acc self with
     | Ok (out, self') => self' = self ∧ ∃ more, out = acc ++ more
     | Raise e => e = KeyError
     | OutOfFuel => True
     end) →
  ∀ acc,
    match for_ l body acc self with
    | Ok (out, self') => self' = self ∧ ∃ more, out = acc ++ more
    | Raise e => e = KeyError
    | OutOfFuel => True
    end.
Proof.
  intros Hb. induction l as [|b l IH]; intros acc; simpl.
  - split; [done|]. exists []. by rewrite app_nil_r.
  - unfold bind. specialize (Hb b acc).
    destruct (body b acc self) as [[out self']|e|]; [|done|done].
    destruct Hb as [-> [more ->]]. specialize (IH (acc ++ more)).
    destruct (for_ l body (acc ++ more) self) as [[out self']|e|]; [|done|done].
    destruct IH as [-> [more' ->]]. split; [done|].
    exists (more ++ more'). by rewrite app_assoc.
Qed.

Lemma finder_outcome fuel q th :
  ∀ r res self,
    match _finder distance fuel r q th res self with
    | Ok (out, self') => self' = self ∧ ∃ more, out = res ++ more
    | Raise e => e = KeyError
    | OutOfFuel => True
    end.
Proof.
  induction fuel as [|fuel IH]; intros r res self; [done|].
  cbn [_finder]. unfold bind at 1, nodes_getitem.
  destruct (nodes self !! r) as [stored|]; [|done].
  match goal with
  | |- context [for_ stored ?body ?acc self] =>
      assert (Hl := for_outcome stored body self); specialize (Hl ltac:(
        intros a acc'; cbn beta; destruct (decide _);
          [apply IH|split; [done|exists []; by rewrite app_nil_r]]) acc);
      cbn beta in Hl;
      destruct (for_ stored body acc self) as [[out self']|e|]; [|done|done]
  end.
  destruct Hl as [-> [more ->]]. split; [done|].
  destruct (decide _); eexists; by rewrite <- ?app_assoc.
Qed.

Lemma find_outcome fuel q th self :
  match find distance fuel q th self with
  | Ok (_, self') => self' = self
  | Raise e => e = KeyError
  | OutOfFuel => True
  end.
Proof.
  unfold find, bind, nodes_nonempty, get_root.
  destruct (bool_decide _); [|done].
  pose proof (finder_outcome fuel q th (root self) [] self) as Ho.
  destruct (_finder _ _ _ _ _ _ _) as [[out self']|e|]; [|done|done].
  by destruct Ho.
Qed.

(** X7. In any state of the object, built by the constructor or not, in
    which the recursion of [_finder] comes to an end, [find] either
    returns, leaving the object as it is, or raises [KeyError].  A state
    with a cycle among its arcs, where the recursion never ends, is not
    covered. *)
Theorem find_any_state fuel q th self :
  find distance fuel q th self ≠ OutOfFuel →
  (∃ res, find distance fuel q th self = Ok (res, self)) ∨
  find distance fuel q th self = Raise KeyError.
Proof.
  intros Hend. pose proof (find_outcome fuel q th self) as Ho.
  destruct (find distance fuel q th self) as [[res self']|e|]; [| |done].
  - left. exists res. by subst self'.
  - right. by subst e.
Qed.

(** **** [_addLeaf] only appends *)

Lemma extends_refl self : extends self self.
Proof. split; [done|]. intros k v Hk. exists []. by rewrite app_nil_r. Qed.

Lemma extends_trans self1 self2 self3 :
  extends self1 self2 → extends self2 self3 → extends self1 self3.
Proof.
  intros [Hr1 H1] [Hr2 H2]. split; [congruence|].
  intros k v Hk. destruct (H1 k v Hk) as (v1 & Hk1).
  destruct (H2 k _ Hk1) as (v2 & Hk2). exists (v1 ++ v2).
  by rewrite app_assoc.
Qed.

(** X8. In any state, a call of [_addLeaf] that returns keeps the root and
    every key, and changes an arc list only by appending to it. *)
Theorem addLeaf_append_only fuel r item self self' :
  _addLeaf distance fuel r item self = Ok ((), self') → extends self self'.
Proof.
  revert r self. induction fuel as [|fuel IH]; intros r self; [done|].
  cbn [_addLeaf]. destruct (decide _); [|intros [= <-]; apply extends_refl].
  unfold bind at 1, nodes_getitem.
  destruct (nodes self !! r) as [stored|] eqn:Hr; [|done].
  destruct (first_arc _ stored) as [a|]; [apply IH|].
  unfold bind, nodes_contains, nodes_setitem, nodes_append, ret.
  destruct (bool_decide (item ∈ dom (nodes self))) eqn:Hhas; cbn.
  - rewrite Hr. intros [= <-]. split; [done|]. cbn. intros k v Hk.
    destruct (decide (k = r)) as [->|Hne].
    + rewrite lookup_insert_eq. simplify_eq. by eexists.
    + rewrite lookup_insert_ne by done. exists []. by rewrite app_nil_r.
  - apply bool_decide_eq_false_1 in Hhas.
    assert (Hir : item ≠ r).
    { intros ->. apply Hhas, elem_of_dom. by eexists. }
    rewrite lookup_insert_ne, Hr by done. intros [= <-]. split; [done|]. cbn.
    intros k v Hk. destruct (decide (k = r)) as [->|Hne].
    + rewrite lookup_insert_eq. simplify_eq. by eexists.
    + rewrite lookup_insert_ne by done.
      assert (item ≠ k).
      { intros ->. apply Hhas, elem_of_dom. by eexists. }
      rewrite lookup_insert_ne by done. exists []. by rewrite app_nil_r.
Qed.

Lemma init_loop_extends fuel l :
  ∀ self self',
    for_ l (λ el _,
      let! has := nodes_contains el in
      if has then ret ()
      else let! rt := get_root in _addLeaf distance fuel rt el) () self
    = Ok ((), self') → extends self self'.
Proof.
  induction l as [|el l IH]; intros self self'; simpl.
  - intros [= <-]. apply extends_refl.
  - unfold bind at 1. unfold bind at 1, nodes_contains.
    destruct (bool_decide _).
    + cbn. apply IH.
    + unfold bind at 1, get_root.
      destruct (_addLeaf _ _ _ _ _) as [[[] self1]|e|] eqn:Ea; [|done|done].
      intros Hl. eapply extends_trans; [by eapply addLeaf_append_only|by apply IH].
Qed.

(** X9. Feeding the constructor a longer stream only appends: every key
    built from [items] is a key built from [items ++ extra], with its arc
    list extended at the end, and the root is the same. *)
Theorem init_append_only items extra fuel :
  (length (items ++ extra) ≤ fuel)%nat →
  ∃ self self',
    __init__ distance empty_str fuel items = Ok self ∧
    __init__ distance empty_str fuel (items ++ extra) = Ok self' ∧
    (∀ k v, nodes self !! k = Some v →
            ∃ v', nodes self' !! k = Some (v ++ v')) ∧
    (items ≠ [] → root self' = root self).
Proof.
  intros Hf. rewrite length_app in Hf.
  destruct (init_built distance empty_str fuel items ltac:(lia)) as (self & Hi & _).
  destruct (init_built distance empty_str fuel (items ++ extra)
              ltac:(rewrite length_app; lia)) as (self' & Hi' & _).
  exists self, self'. split; [done|]. split; [done|].
  destruct items as [|first rest].
  - cbn in Hi. simplify_eq. cbn. split; [|done].
    by intros k v ?%lookup_empty_Some.
  - cbn [__init__ app] in Hi, Hi'. rewrite for_app in Hi'.
    set (loop := for_ rest _ ()) in *. unfold bind at 1 in Hi'.
    destruct (loop _) as [[[] self1]| |]; [|done|done]. simplify_eq.
    destruct (for_ extra _ () self) as [[[] self2]| |] eqn:El; [|done|done].
    simplify_eq. apply init_loop_extends in El as [Hroot Hext].
    by split.
Qed.

(** **** A longer stream never loses results *)

Lemma afind_ainsert_sublist q th item t :
  afind distance q th t `sublist_of` afind distance q th (ainsert distance item t).
Proof.
  induction t as [x arcs IH] using bk_ind'. cbn [ainsert].
  destruct (decide _) as [Hd|Hd]; [|done]. cbn [afind].
  apply sublist_app; [done|].
  destruct (route_spec (ainsert distance item) (Node item [], distance x item)
              (distance x item) arcs)
    as [[_ E]|(pre & c & post & E1 & _ & E3)].
  - rewrite E, flat_map_app. apply sublist_inserts_r. done.
  - subst arcs. rewrite E3, !flat_map_app. apply sublist_app; [done|].
    simpl. apply sublist_app; [|done].
    apply Forall_app in IH as [_ IH]. apply Forall_cons in IH as [IHc _].
    by destruct (decide _).
Qed.

Lemma afind_grow_sublist q th extra :
  ∀ t, afind distance q th t `sublist_of`
       afind distance q th
         (foldl (λ t el, if decide (el ∈ aitems t) then t
                         else ainsert distance el t) t extra).
Proof.
  induction extra as [|el extra IH]; intros t; simpl; [done|].
  etrans; [|apply IH]. destruct (decide _); [done|apply afind_ainsert_sublist].
Qed.

(** X10. For any distance function, whatever [find] returns on the tree
    built from [items] it also returns, in the same relative order, on the
    tree built from the longer stream [items ++ extra]. *)
Theorem find_grows items extra q th fuel :
  (length (items ++ extra) ≤ fuel)%nat →
  ∃ self self' res res',
    __init__ distance empty_str fuel items = Ok self ∧
    __init__ distance empty_str fuel (items ++ extra) = Ok self' ∧
    find distance fuel q th self = Ok (res, self) ∧
    find distance fuel q th self' = Ok (res', self') ∧
    res `sublist_of` res'.
Proof.
  intros Hf. pose proof Hf as Hf'. rewrite length_app in Hf'.
  destruct (init_built distance empty_str fuel items ltac:(lia)) as (self & Hi & Hb).
  destruct (init_built distance empty_str fuel (items ++ extra) Hf)
    as (self' & Hi' & Hb').
  destruct items as [|first rest].
  - subst self. destruct extra as [|e extra].
    + cbn in Hb'. subst self'. exists (mkBKtree empty_str ∅), (mkBKtree empty_str ∅), [], [].
      by repeat split.
    + cbn [app] in *. destruct Hb' as [Hrep' Hlen'].
      exists (mkBKtree empty_str ∅), self', [], (afind distance q th (abuild distance e extra)).
      split; [done|]. split; [done|]. split; [done|].
      split; [apply (find_rep distance); [done|lia]|apply sublist_nil_l].
  - cbn [app] in *. destruct Hb as [Hrep Hlen], Hb' as [Hrep' Hlen'].
    exists self, self', (afind distance q th (abuild distance first rest)),
      (afind distance q th (abuild distance first (rest ++ extra))).
    split; [done|]. split; [done|].
    split; [apply (find_rep distance); [done|simpl in *; lia]|].
    split; [apply (find_rep distance); [done|lia]|].
    unfold abuild. rewrite foldl_app. apply afind_grow_sublist.
Qed.

(** **** What is stored *)

(** X11. For any distance function, metric or not, [find] on a built tree
    never returns a false positive: its result has no repetition, and each
    item in it is a key of the dictionary, came from the stream, and is
    within the threshold of the query. *)
Theorem find_sound_any_distance items q th fuel :
  (length items ≤ fuel)%nat →
  ∃ self res,
    __init__ distance empty_str fuel items = Ok self ∧
    find distance fuel q th self = Ok (res, self) ∧
    NoDup res ∧
    ∀ y, y ∈ res → y ∈ dom (nodes self) ∧ y ∈ items ∧ distance y q ≤ th.
Proof.
  intros Hf.
  destruct (init_built distance empty_str fuel items Hf) as (self & Hi & Hb).
  destruct items as [|first rest].
  - subst self. exists (mkBKtree empty_str ∅), []. split; [done|].
    split; [done|]. split; [apply NoDup_nil_2|]. by intros y ?%elem_of_nil.
  - destruct Hb as [Hrep Hlen].
    exists self, (afind distance q th (abuild distance first rest)).
    split; [done|]. split; [apply (find_rep distance); [done|lia]|]. split.
    + eapply sublist_NoDup; [apply Hrep|apply afind_sublist].
    + intros y [Hy Hd]%afind_sound. split; [by apply (rep_dom _ _ _ Hrep)|].
      split; [by eapply abuild_items_sub|done].
Qed.

Lemma entries_exact t k (v : list (Item * Z)) (a : Item * Z) :
  bkinv distance t → (k, v) ∈ aentries t → a ∈ v →
  a.2 = distance k a.1 ∧ a.1 ∈ aitems t.
Proof.
  induction t as [x arcs IH] using bk_ind'. intros Hinv Hkv Ha.
  inversion Hinv as [x' arcs' Hall]; subst x' arcs'.
  rewrite Forall_forall in IH, Hall.
  cbn [aentries] in Hkv. apply elem_of_cons in Hkv as [E|Hkv].
  - inversion E; subst k v. unfold stubs in Ha.
    apply list_elem_of_fmap in Ha as (b & -> & Hb). cbn.
    destruct (Hall b Hb) as [Hlab _]. split.
    + symmetry. apply Hlab, aroot_in_aitems.
    + eapply aitems_child; [done|apply aroot_in_aitems].
  - apply elem_of_flat_map in Hkv as (b & Hb & Hkv).
    destruct (Hall b Hb) as [_ Hinvb].
    destruct (IH b Hb Hinvb Hkv Ha) as [Hl Hin]. split; [done|].
    by eapply aitems_child.
Qed.

(** X12. For any distance function, every arc stored by the constructor
    points to a key of the dictionary and is labelled with the distance
    from its parent to its child. *)
Theorem arcs_exact items fuel :
  (length items ≤ fuel)%nat →
  ∃ self,
    __init__ distance empty_str fuel items = Ok self ∧
    ∀ (k : Item) (stored : list (Item * Z)) (a : Item * Z),
      nodes self !! k = Some stored → a ∈ stored →
      a.2 = distance k a.1 ∧ a.1 ∈ dom (nodes self).
Proof.
  intros Hf.
  destruct (init_built distance empty_str fuel items Hf) as (self & Hi & Hb).
  exists self. split; [done|]. destruct items as [|first rest].
  - subst self. cbn. by intros k stored a ?%lookup_empty_Some.
  - destruct Hb as [Hrep Hlen]. intros k stored a Hk Ha.
    apply (rep_lookup _ _ _ _ Hrep) in Hk.
    destruct (entries_exact _ _ _ _ (abuild_bkinv distance first rest) Hk Ha)
      as [Hl Hin].
    split; [done|]. by apply (rep_dom _ _ _ Hrep).
Qed.

Lemma aroot_abuild first rest : aroot (abuild distance first rest) = first.
Proof.
  unfold abuild. change first with (aroot (Node first [])) at 2.
  generalize (Node first []). induction rest as [|el rest IH]; intros t; [done|].
  simpl. rewrite IH. destruct (decide _); [done|apply aroot_ainsert].
Qed.



(** X14. For any distance function the dictionary holds nothing but items
    of the stream, at most as many keys as the stream has items, and the
    first item is the root and a key. *)
Theorem init_keys_from_stream first rest fuel :
  (length (first :: rest) ≤ fuel)%nat →
  ∃ self,
    __init__ distance empty_str fuel (first :: rest) = Ok self ∧
    root self = first ∧ first ∈ dom (nodes self) ∧
    (∀ k, k ∈ dom (nodes self) → k ∈ first :: rest) ∧
    (size (nodes self) ≤ length (first :: rest))%nat.
Proof.
  intros Hf.
  destruct (init_built distance empty_str fuel (first :: rest) Hf)
    as (self & Hi & Hrep & Hlen).
  exists self. split; [done|]. pose proof Hrep as (Hnd & Hroot & Hns).
  pose proof (aroot_abuild first rest) as Hr.
  split; [congruence|]. split; [|split].
  - apply (rep_dom _ _ _ Hrep).
    pose proof (aroot_in_aitems (abuild distance first rest)) as Hin.
    by rewrite Hr in Hin.
  - intros k Hk%(rep_dom _ _ _ Hrep). by eapply abuild_items_sub.
  - etrans; [|exact Hlen]. rewrite Hns, map_size_list_to_map by done.
    unfold aitems. by rewrite length_fmap.
Qed.

(** **** Repeated items in the stream *)

Lemma rep_inj self self' t : rep self t → rep self' t → self = self'.
Proof.
  intros (_ & Hr & Hn) (_ & Hr' & Hn'). destruct self, self'. cbn in *.
  congruence.
Qed.

Lemma length_first_occurrences (seen l : list Item) :
  (length (first_occurrences seen l) ≤ length l)%nat.
Proof.
  revert seen. induction l as [|x l IH]; intros seen; simpl; [done|].
  destruct (decide _); [specialize (IH seen)|specialize (IH (x :: seen))];
    simpl; lia.
Qed.

Lemma build_first_occurrences rest :
  (∀ x y, x ≠ y → distance x y > 0) →
  ∀ t (seen : list Item), (∀ y, y ∈ seen ↔ y ∈ aitems t) →
    foldl (λ t el, if decide (el ∈ aitems t) then t
                   else ainsert distance el t) t rest
    = foldl (λ t el, if decide (el ∈ aitems t) then t
                     else ainsert distance el t) t
        (first_occurrences seen rest).
Proof.
  intros Hpos. induction rest as [|el rest IH]; intros t seen Hseen; [done|].
  simpl. destruct (decide (el ∈ aitems t)) as [Hin|Hin].
  - rewrite decide_True by (by apply Hseen). by apply IH.
  - rewrite decide_False by (by rewrite Hseen). simpl.
    rewrite decide_False by done. apply IH. intros y.
    rewrite elem_of_cons, Hseen. split.
    + intros [->|Hy]; [by apply ainsert_adds|by apply elem_of_aitems_ainsert_old].
    + intros Hy. by apply elem_of_aitems_ainsert in Hy.
Qed.

(** X15. With a distance that is positive between distinct items, the
    constructor builds the same object from a stream and from the stream
    with every repeated item removed (each item kept where it first
    occurs). *)
Theorem init_first_occurrences items fuel :
  (∀ x y, x ≠ y → distance x y > 0) →
  (length items ≤ fuel)%nat →
  ∃ self,
    __init__ distance empty_str fuel items = Ok self ∧
    __init__ distance empty_str fuel (first_occurrences [] items) = Ok self.
Proof.
  intros Hpos Hf.
  destruct (init_built distance empty_str fuel items Hf) as (self & Hi & Hb).
  exists self. split; [done|]. destruct items as [|first rest]; [done|].
  destruct Hb as [Hrep _]. cbn [first_occurrences].
  rewrite decide_False by apply not_elem_of_nil.
  destruct (init_built distance empty_str fuel
              (first :: first_occurrences [first] rest))
    as (self' & Hi' & Hrep' & _).
  { pose proof (length_first_occurrences [first] rest). simpl in *. lia. }
  rewrite Hi'. f_equal. apply (rep_inj _ _ _ Hrep'). unfold abuild.
  rewrite <- (build_first_occurrences rest Hpos (Node first []) [first]); [done|].
  intros y. by rewrite aitems_node.
Qed.

(** **** Exact search with a metric *)

Lemma find_exact items q th fuel :
  (∀ x, distance x x = 0) →
  (∀ x y, distance x y = distance y x) →
  (∀ x y z, distance x z ≤ distance x y + distance y z) →
  (∀ x y, distance x y = 0 → x = y) →
  (length items ≤ fuel)%nat →
  ∃ self res,
    __init__ distance empty_str fuel items = Ok self ∧
    find distance fuel q th self = Ok (res, self) ∧
    NoDup res ∧
    ∀ y, y ∈ res ↔ y ∈ items ∧ distance q y ≤ th.
Proof.
  intros Hrefl Hsym Htri Hsep Hf.
  destruct (find_sound_any_distance items q th fuel Hf)
    as (self & res & Hi & Hfind & Hnd & Hsound).
  exists self, res. split; [done|]. split; [done|]. split; [done|].
  intros y. rewrite (Hsym q y). split; [intros Hy; by apply Hsound|].
  intros [Hy Hd]. destruct items as [|first rest]; [by apply elem_of_nil in Hy|].
  destruct (init_built distance empty_str fuel (first :: rest) Hf)
    as (self0 & Hi0 & Hrep & Hlen).
  rewrite Hi in Hi0. injection Hi0 as <-.
  rewrite (find_rep distance fuel q th self _ Hrep) in Hfind by lia.
  injection Hfind as <-. apply afind_complete; try done.
  - apply abuild_bkinv.
  - apply abuild_items_all; [|done]. intros x z Hxz.
    pose proof (Htri x z x). pose proof (Hsym x z). pose proof (Hrefl x).
    destruct (decide (distance x z = 0)) as [E|E]; [by apply Hsep in E|lia].
Qed.

(** X16. With a metric, [find] with threshold 0 is a membership test:
    it returns [[q]] when the query item was indexed and [[]] otherwise. *)
Theorem find_zero_membership items q fuel :
  (∀ x, distance x x = 0) →
  (∀ x y, distance x y = distance y x) →
  (∀ x y z, distance x z ≤ distance x y + distance y z) →
  (∀ x y, distance x y = 0 → x = y) →
  (length items ≤ fuel)%nat →
  ∃ self,
    __init__ distance empty_str fuel items = Ok self ∧
    find distance fuel q 0 self
      = Ok (if decide (q ∈ items) then [q] else [], self).
Proof.
  intros Hrefl Hsym Htri Hsep Hf.
  destruct (find_exact items q 0 fuel Hrefl Hsym Htri Hsep Hf)
    as (self & res & Hi & Hfind & Hnd & Hres).
  exists self. split; [done|]. rewrite Hfind. do 2 f_equal.
  assert (Hall : ∀ y, y ∈ res → y = q).
  { intros y [_ Hd]%Hres. symmetry. apply Hsep.
    pose proof (Htri q y q). pose proof (Hsym q y). pose proof (Hrefl q). lia. }
  destruct (decide (q ∈ items)) as [Hq|Hq].
  - assert (Hin : q ∈ res) by (apply Hres; rewrite Hrefl; done).
    destruct res as [|a [|b res]].
    + by apply elem_of_nil in Hin.
    + f_equal. apply Hall. left.
    + exfalso. apply NoDup_cons in Hnd as [Hnd _]. apply Hnd.
      rewrite (Hall a) by left. rewrite (Hall b) by (right; left). left.
  - destruct res as [|a res]; [done|]. exfalso. apply Hq.
    rewrite <- (Hall a) by left. apply Hres. left.
Qed.

(** X17. With a metric, the order of the stream does not matter to the
    answer: trees built from two rearrangements of the same items return
    rearrangements of the same result. *)
Theorem find_order_insensitive items items' q th fuel :
  (∀ x, distance x x = 0) →
  (∀ x y, distance x y = distance y x) →
  (∀ x y z, distance x z ≤ distance x y + distance y z) →
  (∀ x y, distance x y = 0 → x = y) →
  items ≡ₚ items' →
  (length items ≤ fuel)%nat →
  ∃ self self' res res',
    __init__ distance empty_str fuel items = Ok self ∧
    __init__ distance empty_str fuel items' = Ok self' ∧
    find distance fuel q th self = Ok (res, self) ∧
    find distance fuel q th self' = Ok (res', self') ∧
    res ≡ₚ res'.
Proof.
  intros Hrefl Hsym Htri Hsep Hp Hf.
  destruct (find_exact items q th fuel Hrefl Hsym Htri Hsep Hf)
    as (self & res & Hi & Hfind & Hnd & Hres).
  destruct (find_exact items' q th fuel Hrefl Hsym Htri Hsep)
    as (self' & res' & Hi' & Hfind' & Hnd' & Hres').
  { by rewrite <- Hp. }
  exists self, self', res, res'. repeat (split; [done|]).
  apply NoDup_Permutation; [done|done|].
  intros y. rewrite Hres, Hres'. by rewrite Hp.
Qed.

(** **** The lazy query *)

(** X18. On the tree built from a non-empty stream, for any distance
    function, [xfind] returns a generator, and draining it gives the list
    [find] returns, in the same order. *)
Theorem xfind_drained_is_find first rest q th fuel :
  (4 * length (first :: rest) < fuel)%nat →
  ∃ self g res,
    __init__ distance empty_str fuel (first :: rest) = Ok self ∧
    xfind q th self = Ok (Some g, self) ∧
    find distance fuel q th self = Ok (res, self) ∧
    drain distance fuel q th g [] self = Ok (res, self) ∧
    list_xfind distance fuel q th self = Ok (res, self).
Proof.
  intros Hf.
  destruct (init_built distance empty_str fuel (first :: rest) ltac:(lia))
    as (self & Hi & Hrep & Hlen).
  exists self, [FStart (root self)], (afind distance q th (abuild distance first rest)).
  split; [done|]. split; [by eapply xfind_rep|].
  split; [apply (find_rep distance); [done|lia]|].
  destruct (yields_rep distance q th self _ Hrep) as (n & Hn & Hy).
  split; [apply (drain_spec distance q th self n _ _ Hy); lia|].
  apply (list_xfind_rep distance); [done|lia].
Qed.

(** X19. Pulling only [n] items from the generator of [xfind] gives the
    first [n] items of the list [find] returns (all of them when there are
    fewer), and leaves the object as it is. *)
Theorem xfind_prefix first rest q th fuel n :
  (4 * length (first :: rest) < fuel)%nat →
  ∃ self g res g',
    __init__ distance empty_str fuel (first :: rest) = Ok self ∧
    xfind q th self = Ok (Some g, self) ∧
    find distance fuel q th self = Ok (res, self) ∧
    pull distance n fuel q th g self = Ok ((take n res, g'), self).
Proof.
  intros Hf.
  destruct (init_built distance empty_str fuel (first :: rest) ltac:(lia))
    as (self & Hi & Hrep & Hlen).
  destruct (pull_rep distance n fuel q th self _ Hrep ltac:(lia)) as (g' & Hp).
  exists self, [FStart (root self)],
    (afind distance q th (abuild distance first rest)), g'.
  split; [done|]. split; [by eapply xfind_rep|].
  split; [apply (find_rep distance); [done|lia]|done].
Qed.

End more_facts.

(** *** The index over edit distance *)

(** X20. The two parts together: a tree built over sequences with
    [edit_distance] as its distance answers [find] with exactly the indexed
    sequences within the threshold of the query, each once. *)
Theorem edit_distance_index_complete {A : Type} `{Countable A}
    (items : list (list A)) (q : list A) (th : Z) (fuel : nat) :
  (length items ≤ fuel)%nat →
  ∃ self res,
    __init__ EditDistance.edit_distance [] fuel items = Ok self ∧
    find EditDistance.edit_distance fuel q th self = Ok (res, self) ∧
    NoDup res ∧
    ∀ y, y ∈ res ↔ y ∈ items ∧ EditDistance.edit_distance q y ≤ th.
Proof.
  intros Hf. apply find_exact; [| | | |done].
  - apply EditDistanceFacts.edit_distance_refl.
  - apply EditDistanceFacts.edit_distance_sym.
  - apply EditDistanceFacts.edit_distance_triangle.
  - apply EditDistanceFacts.edit_distance_zero.
Qed.

(** *** Concrete instances of the further properties *)

(** A dictionary with a dangling arc: [7] is named by an arc but is not a
    key.  [find] follows the arc and raises [KeyError]. *)
Lemma find_any_state_witness :
  let self := mkBKtree 0 {[ 0 := [(7, 1)] ]} in
  find Instances.zdist 2 0 1 self = Raise KeyError ∧
  ((∃ res, find Instances.zdist 2 0 1 self = Ok (res, self)) ∨
   find Instances.zdist 2 0 1 self = Raise KeyError).
Proof.
  cbv zeta. split; [vm_compute; reflexivity|].
  apply (find_any_state Instances.zdist 2 0 1 (mkBKtree 0 {[ 0 := [(7, 1)] ]})).
  vm_compute. discriminate.
Defined.

(** A dictionary with a cycle: the arc of [0] leads back to [0].  The
    recursion of [_finder] never ends on it, whatever the budget. *)
Example find_cycle_never_ends fuel :
  find Instances.zdist fuel 1 0 (mkBKtree 0 {[ 0 := [(0, 1)] ]}) = OutOfFuel.
Proof.
  assert (Hrec : ∀ res,
    _finder Instances.zdist fuel 0 1 0 res (mkBKtree 0 {[ 0 := [(0, 1)] ]})
    = OutOfFuel).
  { induction fuel as [|fuel IH]; intros res; [done|].
    cbn [_finder]. unfold bind at 1, nodes_getitem. cbn [nodes].
    rewrite lookup_singleton_eq. cbn [for_]. unfold bind at 1.
    change (Instances.zdist 0 1) with 1. cbn [fst snd].
    rewrite decide_True by lia. by rewrite IH. }
  unfold find, bind, nodes_nonempty, get_root. cbn [nodes root].
  rewrite bool_decide_eq_true_2 by apply map_non_empty_singleton.
  apply Hrec.
Qed.

Lemma addLeaf_append_only_witness :
  extends (mkBKtree 1 {[ 1 := [] ]})
          (mkBKtree 1 (<[1 := [(5, 4)]]> {[ 5 := [] ]})).
Proof.
  apply (addLeaf_append_only Instances.zdist 1 1 5).
  vm_compute. reflexivity.
Defined.

Lemma init_append_only_witness :
  ∃ self self',
    __init__ Instances.zdist 0 4 [1; 5] = Ok self ∧
    __init__ Instances.zdist 0 4 ([1; 5] ++ [3; 9]) = Ok self' ∧
    (∀ k v, nodes self !! k = Some v →
            ∃ v', nodes self' !! k = Some (v ++ v')) ∧
    ([1; 5] ≠ [] → root self' = root self).
Proof.
  apply (init_append_only Instances.zdist 0 [1; 5] [3; 9] 4). simpl. lia.
Defined.

Lemma find_grows_witness :
  ∃ self self' res res',
    __init__ Instances.zdist 0 4 [1; 5] = Ok self ∧
    __init__ Instances.zdist 0 4 ([1; 5] ++ [3; 9]) = Ok self' ∧
    find Instances.zdist 4 4 1 self = Ok (res, self) ∧
    find Instances.zdist 4 4 1 self' = Ok (res', self') ∧
    res `sublist_of` res'.
Proof.
  apply (find_grows Instances.zdist 0 [1; 5] [3; 9] 4 1 4). simpl. lia.
Defined.

Lemma find_sound_any_distance_witness :
  ∃ self res,
    __init__ Instances.absdist 0 3 [1; -1; 3] = Ok self ∧
    find Instances.absdist 3 2 1 self = Ok (res, self) ∧
    NoDup res ∧
    ∀ y, y ∈ res →
      y ∈ dom (nodes self) ∧ y ∈ [1; -1; 3] ∧ Instances.absdist y 2 ≤ 1.
Proof.
  apply (find_sound_any_distance Instances.absdist 0 [1; -1; 3] 2 1 3).
  simpl. lia.
Defined.

Lemma arcs_exact_witness :
  ∃ self,
    __init__ Instances.zdist 0 3 [1; 5; 3] = Ok self ∧
    ∀ (k : Z) (stored : list (Z * Z)) (a : Z * Z),
      nodes self !! k = Some stored → a ∈ stored →
      a.2 = Instances.zdist k a.1 ∧ a.1 ∈ dom (nodes self).
Proof. apply (arcs_exact Instances.zdist 0 [1; 5; 3] 3). simpl. lia. Defined.


Lemma init_keys_from_stream_witness :
  ∃ self,
    __init__ Instances.absdist 0 3 [1; -1; 3] = Ok self ∧
    root self = 1 ∧ 1 ∈ dom (nodes self) ∧
    (∀ k, k ∈ dom (nodes self) → k ∈ [1; -1; 3]) ∧
    (size (nodes self) ≤ length [1; -1; 3]%Z)%nat.
Proof.
  apply (init_keys_from_stream Instances.absdist 0 1 [-1; 3] 3). simpl. lia.
Defined.

Lemma init_first_occurrences_witness :
  ∃ self,
    __init__ Instances.zdist 0 5 [1; 5; 1; 3; 5] = Ok self ∧
    __init__ Instances.zdist 0 5 (first_occurrences [] [1; 5; 1; 3; 5]) = Ok self.
Proof.
  apply (init_first_occurrences Instances.zdist 0 [1; 5; 1; 3; 5] 5);
    unfold Instances.zdist; intros; simpl; lia.
Defined.

Lemma find_zero_membership_witness :
  ∃ self,
    __init__ Instances.zdist 0 3 [1; 5; 3] = Ok self ∧
    find Instances.zdist 3 5 0 self
      = Ok (if decide (5 ∈ [1; 5; 3]) then [5] else [], self).
Proof.
  apply (find_zero_membership Instances.zdist 0 [1; 5; 3] 5 3);
    unfold Instances.zdist; intros; simpl; lia.
Defined.

Lemma find_order_insensitive_witness :
  ∃ self self' res res',
    __init__ Instances.zdist 0 3 [1; 5; 3] = Ok self ∧
    __init__ Instances.zdist 0 3 [5; 1; 3] = Ok self' ∧
    find Instances.zdist 3 4 1 self = Ok (res, self) ∧
    find Instances.zdist 3 4 1 self' = Ok (res', self') ∧
    res ≡ₚ res'.
Proof.
  apply (find_order_insensitive Instances.zdist 0 [1; 5; 3] [5; 1; 3] 4 1 3);
    try (unfold Instances.zdist; intros; simpl; lia).
  apply perm_swap.
Defined.

Lemma xfind_drained_is_find_witness :
  ∃ self g res,
    __init__ Instances.zdist 0 13 [1; 5; 3] = Ok self ∧
    xfind 4 1 self = Ok (Some g, self) ∧
    find Instances.zdist 13 4 1 self = Ok (res, self) ∧
    drain Instances.zdist 13 4 1 g [] self = Ok (res, self) ∧
    list_xfind Instances.zdist 13 4 1 self = Ok (res, self).
Proof.
  apply (xfind_drained_is_find Instances.zdist 0 1 [5; 3] 4 1 13). simpl. lia.
Defined.

Lemma xfind_prefix_witness :
  ∃ self g res g',
    __init__ Instances.zdist 0 13 [1; 5; 3] = Ok self ∧
    xfind 4 1 self = Ok (Some g, self) ∧
    find Instances.zdist 13 4 1 self = Ok (res, self) ∧
    pull Instances.zdist 1 13 4 1 g self = Ok ((take 1 res, g'), self).
Proof.
  apply (xfind_prefix Instances.zdist 0 1 [5; 3] 4 1 13 1). simpl. lia.
Defined.

Lemma edit_distance_index_complete_witness :
  ∃ self res,
    __init__ EditDistance.edit_distance [] 3
      [[1; 2; 3]; [1; 3]; [4]]%nat = Ok self ∧
    find EditDistance.edit_distance 3 [1; 2]%nat 1 self = Ok (res, self) ∧
    NoDup res ∧
    ∀ y, y ∈ res ↔
      y ∈ [[1; 2; 3]; [1; 3]; [4]]%nat ∧
      EditDistance.edit_distance [1; 2]%nat y ≤ 1.
Proof.
  apply (edit_distance_index_complete [[1; 2; 3]; [1; 3]; [4]]%nat [1; 2]%nat 1 3).
  simpl. lia.
Defined.

(** *** The docstring scenario *)

Import Instances.

Example docstring_find_cuba :
  match __init__ word_distance "" 13 docstring_words with
  | Ok self =>
      (λ th, match find word_distance 13 "cuba" th self with
             | Ok (res, _) => Some res
             | _ => None
             end) <$> [0; 1; 2; 3]
  | _ => []
  end
  = [Some ["cuba"]; Some ["cuba"; "cube"]; Some ["cubic"; "cuba"; "cube"];
     Some ["clump"; "cubic"; "cuba"; "cube"]]%string.
Proof. vm_compute. reflexivity. Qed.

Example docstring_find_abyss :
  match __init__ word_distance "" 13 docstring_words with
  | Ok self =>
      (λ th, match find word_distance 13 "abyss" th self with
             | Ok (res, _) => Some res
             | _ => None
             end) <$> [0; 1; 2; 3]
  | _ => []
  end
  = [Some ["abyss"]; Some ["abyss"]; Some ["abyss"];
     Some ["abyss"; "abused"]]%string.
Proof. vm_compute. reflexivity. Qed.

Example docstring_xfind_cuba :
  match __init__ word_distance "" 13 docstring_words with
  | Ok self =>
      match list_xfind word_distance 53 "cuba" 3 self with
      | Ok (res, _) => Some res
      | _ => None
      end
  | _ => None
  end
  = Some ["clump"; "cubic"; "cuba"; "cube"]%string.
Proof. vm_compute. reflexivity. Qed.

(** *** Concrete instances of the theorems *)

Lemma find_complete_witness :
  ∃ self res,
    __init__ zdist 0 3 [1; 5; 3] = Ok self ∧
    find zdist 3 4 1 self = Ok (res, self) ∧
    NoDup res ∧
    ∀ y, y ∈ res ↔ y ∈ [1; 5; 3] ∧ zdist 4 y ≤ 1.
Proof.
  apply (find_complete zdist 0 [1; 5; 3] 4 1 3);
    unfold zdist; intros; simpl; lia.
Defined.

Lemma negative_threshold_empty_witness :
  ∃ self,
    __init__ zdist 0 13 [1; 5; 3] = Ok self ∧
    find zdist 13 2 (-1) self = Ok ([], self) ∧
    ([1; 5; 3] ≠ [] → list_xfind zdist 13 2 (-1) self = Ok ([], self)).
Proof.
  apply (negative_threshold_empty zdist 0 [1; 5; 3] 2 (-1) 13);
    unfold zdist; intros; simpl; lia.
Defined.

Lemma init_structure_witness :
  (∀ x y, x ≠ y → zdist x y > 0) ∧
  ∃ self,
    __init__ zdist 0 4 [1; 5; 3; 5] = Ok self ∧
    (∀ (k : Z) (arcs : list (Z * Z)),
       nodes self !! k = Some arcs → NoDup arcs.*2) ∧
    (∀ y, y ∈ dom (nodes self) →
          __init__ zdist 0 4 ([1; 5; 3; 5] ++ [y]) = Ok self) ∧
    (∀ y, y ∈ dom (nodes self) → y ∈ [1; 5; 3; 5]) ∧
    ((∀ x y, x ≠ y → zdist x y > 0) →
     (∀ y, y ∈ [1; 5; 3; 5] → y ∈ dom (nodes self)) ∧
     (map_to_list (nodes self)).*1 ≡ₚ first_occurrences [] [1; 5; 3; 5]).
Proof.
  split; [unfold zdist; intros; lia|].
  apply (init_structure zdist 0 [1; 5; 3; 5] 4). simpl. lia.
Defined.

Lemma find_monotone_witness :
  ∃ self res1 res2,
    __init__ zdist 0 3 [1; 5; 3] = Ok self ∧
    find zdist 3 4 1 self = Ok (res1, self) ∧
    find zdist 3 4 2 self = Ok (res2, self) ∧
    res1 `sublist_of` res2 ∧
    ∀ y, y ∈ res1 → y ∈ res2.
Proof.
  apply (find_monotone zdist 0 [1; 5; 3] 4 1 2 3); simpl; lia.
Defined.

Lemma queries_preserve_tree_witness :
  ∃ self,
    __init__ zdist 0 13 [1; 5; 3] = Ok self ∧
    (∃ res, find zdist 13 4 1 self = Ok (res, self)) ∧
    (∃ og, xfind 4 1 self = Ok (og, self) ∧
       ∀ g, og = Some g →
         (∃ res, drain zdist 13 4 1 g [] self = Ok (res, self)) ∧
         (∀ n, ∃ ys g', pull zdist n 13 4 1 g self = Ok ((ys, g'), self))) ∧
    (∀ g fuel' res self',
       gen_next zdist fuel' 4 1 g self = Ok (res, self') → self' = self).
Proof.
  apply (queries_preserve_tree zdist 0 [1; 5; 3] 4 1 13); simpl; lia.
Defined.

Lemma arc_labels_positive_witness :
  ∃ self,
    __init__ zdist 0 3 [1; 5; 3] = Ok self ∧
    ∀ (k : Z) (arcs : list (Z * Z)) (a : Z * Z),
      nodes self !! k = Some arcs → a ∈ arcs → 0 < a.2.
Proof.
  apply (arc_labels_positive zdist 0 [1; 5; 3] 3); simpl; lia.
Defined.

(** *** Where the stated properties fail *)

(** C1 as stated fails: [absdist] is zero on equal items, symmetric and
    satisfies the triangle inequality; the tree built from [1; -1] holds
    only [1], and [find(-1, 0)] returns [[1]], although [-1] was indexed
    and is at distance 0 from the query. *)
Lemma find_complete_counterexample :
  (∀ x, absdist x x = 0) ∧
  (∀ x y, absdist x y = absdist y x) ∧
  (∀ x y z, absdist x z ≤ absdist x y + absdist y z) ∧
  __init__ absdist 0 2 [1; -1] = Ok (mkBKtree 1 {[ 1 := [] ]}) ∧
  find absdist 2 (-1) 0 (mkBKtree 1 {[ 1 := [] ]})
    = Ok ([1], mkBKtree 1 {[ 1 := [] ]}) ∧
  (-1 ∈ [1; -1] ∧ absdist (-1) (-1) ≤ 0) ∧
  -1 ∉ [1].
Proof.
  split; [unfold absdist; lia|]. split; [unfold absdist; lia|].
  split; [unfold absdist; lia|].
  split; [vm_compute; reflexivity|]. split; [vm_compute; reflexivity|].
  split; [split; [right; left|by vm_compute]|].
  intros Hin. apply list_elem_of_singleton in Hin. lia.
Qed.

(** C5 as stated fails: with threshold [-1], [find] raises nothing and
    returns the empty list. *)
Lemma negative_threshold_counterexample :
  let self := mkBKtree 1 (<[1 := [(5, 4); (3, 2)]]> (<[5 := []]> {[ 3 := [] ]})) in
  __init__ zdist 0 3 [1; 5; 3] = Ok self ∧
  find zdist 3 2 (-1) self = Ok ([], self) ∧
  ∀ e, find zdist 3 2 (-1) self ≠ Raise e.
Proof.
  cbv zeta. split; [vm_compute; reflexivity|].
  assert (E : find zdist 3 2 (-1)
                (mkBKtree 1 (<[1 := [(5, 4); (3, 2)]]> (<[5 := []]> {[ 3 := [] ]})))
              = Ok ([], mkBKtree 1 (<[1 := [(5, 4); (3, 2)]]> (<[5 := []]> {[ 3 := [] ]}))))
    by (vm_compute; reflexivity).
  split; [done|]. intros e. by rewrite E.
Qed.

(** C7 as stated fails: with [absdist] the item [-1] of the stream
    [1; -1] is not a key of the dictionary. *)
Lemma init_structure_counterexample :
  (∀ x, absdist x x = 0) ∧
  (∀ x y, absdist x y = absdist y x) ∧
  (∀ x y z, absdist x z ≤ absdist x y + absdist y z) ∧
  __init__ absdist 0 2 [1; -1] = Ok (mkBKtree 1 {[ 1 := [] ]}) ∧
  -1 ∈ [1; -1] ∧
  -1 ∉ dom (nodes (mkBKtree 1 ({[ 1 := [] ]} : gmap Z (list (Z * Z))))).
Proof.
  split; [unfold absdist; lia|]. split; [unfold absdist; lia|].
  split; [unfold absdist; lia|].
  split; [vm_compute; reflexivity|]. split; [right; left|].
  cbn. rewrite dom_singleton_L. intros Hin. apply elem_of_singleton in Hin. lia.
Qed.

Example docstring_empty_stream :
  ∃ self,
    __init__ word_distance "" 0 [] = Ok self ∧
    find word_distance 0 "hello" 1 self = Ok ([], self) ∧
    find word_distance 0 "" 0 self = Ok ([], self).
Proof. by eexists. Qed.

End BKFacts.
